(** * The content aggregation layer of the blog and the schema of its
      collections, embedded shallowly.

    [getPublishedBlogs], [getCategoriesWithBlogs] and [getTagsWithBlogs]
    are those of src/utils/data.ts; the schemas are the [defineCollection]
    calls over [BLOG_CATEGORIES] of src/consts.ts.

    Dates are JavaScript time values (milliseconds since the epoch, a valid
    [Date] after [z.coerce.date()]), strings are [string], a collection is
    the list [getCollection] resolves to, and an [async] function is the
    function of the snapshot it awaits. *)

From Stdlib Require Import ZArith NArith Lia Ascii String.
From stdpp Require Import base decidable numbers option list sorting strings.

Open Scope Z_scope.

(** ** Content entries *)

(** The value [reference("category")] produces: [{ collection, id }]. *)
Record Reference := { ref_collection : string; ref_id : string }.

(** The validated frontmatter of a post, field by field as in the schema. *)
Record BlogData := {
  title : string;
  description : string;
  pubDate : Z;
  updatedDate : option Z;
  isDraft : bool;
  heroImage : option string;
  category : Reference;
  tags : option (list string);
}.

Record CategoryData := { slug : string; name : string }.

(** [CollectionEntry<C>]: an identifier and the validated data. *)
Record CollectionEntry (D : Type) := { id : string; data : D }.
Arguments id {D} _.
Arguments data {D} _.

Abbreviation BlogEntry := (CollectionEntry BlogData).
Abbreviation CategoryEntry := (CollectionEntry CategoryData).

Global Instance Reference_eq_dec : EqDecision Reference.
Proof. solve_decision. Defined.
Global Instance BlogData_eq_dec : EqDecision BlogData.
Proof. solve_decision. Defined.
Global Instance CategoryData_eq_dec : EqDecision CategoryData.
Proof. solve_decision. Defined.
Global Instance CollectionEntry_eq_dec `{EqDecision D} :
  EqDecision (CollectionEntry D).
Proof. solve_decision. Defined.

(** The snapshot [getCollection] reads: one list per collection, in the
    collection's iteration order. *)
Record ContentStore := {
  getCollection_blog : list BlogEntry;
  getCollection_category : list CategoryEntry;
}.

(** ** lodash: [_.orderBy], with one iteratee and one order *)

Module Lodash.

Inductive order := asc | desc.

(** [compareAscending(value, other)] on two time values. *)
Definition compareAscending (value other : Z) : Z :=
  if value >? other then 1
  else if value <? other then -1
  else 0.

(** The objects [baseOrderBy] sorts: [{ criteria, index, value }]. *)
Record sortable (A : Type) := { criteria : Z; index : nat; value : A }.
Arguments criteria {A} _.
Arguments index {A} _.
Arguments value {A} _.

Definition compareMultiple {A} (ord : order) (object other : sortable A) : Z :=
  let result := compareAscending (criteria object) (criteria other) in
  if negb (result =? 0) then
    result * (match ord with desc => -1 | asc => 1 end)
  else Z.of_nat (index object) - Z.of_nat (index other).

(** [Array.prototype.sort(comparer)]: [a] is placed before [b] when
    [comparer a b <= 0].  The engine's algorithm is a merge sort; lemma
    [orderBy_any_sort] shows that for [compareMultiple] every algorithm
    answers the same. *)
Definition before {A} (comparer : A → A → Z) : relation A :=
  λ a b, comparer a b ≤ 0.

Global Instance before_dec {A} (comparer : A → A → Z) a b :
  Decision (before comparer a b).
Proof. unfold before. apply _. Defined.

Definition Array_sort {A} (comparer : A → A → Z) (array : list A) : list A :=
  merge_sort (before comparer) array.

Definition baseSortBy {A} (array : list (sortable A))
    (comparer : sortable A → sortable A → Z) : list A :=
  value <$> Array_sort comparer array.

Definition baseMap {A} (iteratee : A → Z) (collection : list A)
    : list (sortable A) :=
  imap (λ i v, {| criteria := iteratee v; index := i; value := v |})
       collection.

Definition orderBy {A} (collection : list A) (iteratee : A → Z)
    (ord : order) : list A :=
  baseSortBy (baseMap iteratee collection) (compareMultiple ord).

(** The sorted array [baseSortBy] builds before it strips the criteria. *)
Definition sorted_array {A} (iteratee : A → Z) (ord : order) (l : list A)
    : list (sortable A) :=
  Array_sort (compareMultiple ord) (baseMap iteratee l).

(** The order on keys an [order] stands for. *)
Definition key_before (ord : order) (x y : Z) : Prop :=
  match ord with asc => x < y | desc => y < x end.

End Lodash.

(** ** The JavaScript the aggregation layer runs on *)

Module JS.

Inductive error := TypeError.

(** What a call gives back: a value, or a thrown error. *)
Inductive completion (A : Type) := normal (a : A) | throw (e : error).
Arguments normal {A} _.
Arguments throw {A} _.

Global Instance completion_ret : MRet completion := λ A a, normal a.
Global Instance completion_bind : MBind completion := λ A B f m,
  match m with normal a => f a | throw e => throw e end.

(** [array.forEach(callback)] where the callback updates a state [S] and
    may throw; a throw ends the loop. *)
Fixpoint forEach {A S} (array : list A) (callback : A → S → completion S)
    (s : S) : completion S :=
  match array with
  | [] => normal s
  | x :: rest => s' ← callback x s; forEach rest callback s'
  end.

(** An ordinary object with string keys, created by [{}]: its own
    properties in creation order; its prototype is [Object.prototype]. *)
Abbreviation object V := (list (string * V)).

(** The property names [Object.prototype] defines; every one of them
    holds a function or (for [__proto__]) an object, none has [push]. *)
Definition Object_prototype : list string :=
  ["constructor"; "__defineGetter__"; "__defineSetter__"; "hasOwnProperty";
   "__lookupGetter__"; "__lookupSetter__"; "isPrototypeOf";
   "propertyIsEnumerable"; "toString"; "valueOf"; "__proto__";
   "toLocaleString"].

(** What [o[key]] evaluates to. *)
Inductive property (V : Type) := own (v : V) | inherited | undefined.
Arguments own {V} _.
Arguments inherited {V}.
Arguments undefined {V}.

Fixpoint getOwn {V} (o : object V) (key : string) : option V :=
  match o with
  | [] => None
  | (k, v) :: o' => if decide (k = key) then Some v else getOwn o' key
  end.

Definition Get {V} (o : object V) (key : string) : property V :=
  match getOwn o key with
  | Some v => own v
  | None =>
      if bool_decide (key ∈ Object_prototype) then inherited else undefined
  end.

(** [o[key] = v]: an own property keeps its place, a new one is created
    last. *)
Fixpoint Set_ {V} (o : object V) (key : string) (v : V) : object V :=
  match o with
  | [] => [(key, v)]
  | (k, w) :: o' =>
      if decide (k = key) then (k, v) :: o' else (k, w) :: Set_ o' key v
  end.

(** [!x] for [x = o[key]] when the own values are arrays: an array and an
    inherited function or object are truthy, [undefined] is falsy. *)
Definition ToBoolean {V} (x : property V) : bool :=
  match x with own _ => true | inherited => true | undefined => false end.

Definition digit (c : ascii) : option N :=
  let n := N_of_ascii c in
  if decide (48 ≤ n ≤ 57)%N then Some (n - 48)%N else None.

Fixpoint digits (acc : N) (s : string) : option N :=
  match s with
  | EmptyString => Some acc
  | String c s' => d ← digit c; digits (10 * acc + d)%N s'
  end.

(** A key is an array index when it is the canonical decimal spelling of
    an integer in [0, 2^32 - 2]. *)
Definition array_index (key : string) : option N :=
  match key with
  | EmptyString => None
  | String c rest =>
      d ← digit c;
      if decide (d = 0%N) then
        match rest with EmptyString => Some 0%N | _ => None end
      else
        n ← digits 0 key;
        if decide (n < 2 ^ 32 - 1)%N then Some n else None
  end.

Definition index_le {V} : relation (N * V) := λ a b, (a.1 ≤ b.1)%N.

Global Instance index_le_dec {V} (a b : N * V) : Decision (index_le a b).
Proof. unfold index_le. apply _. Defined.

(** The own properties whose key is an array index, each with its index. *)
Definition indexed_properties {V} (o : object V) : list (N * (string * V)) :=
  omap (λ kv, (λ n, (n, kv)) <$> array_index kv.1) o.

(** [Object.entries(o)]: the own properties whose key is an array index,
    by ascending index, then the other own properties in creation
    order. *)
Definition Object_entries {V} (o : object V) : list (string * V) :=
  (snd <$> merge_sort index_le (indexed_properties o))
  ++ filter (λ kv, array_index kv.1 = None) o.

End JS.

(** ** src/utils/data.ts *)

Definition getPublishedBlogs (st : ContentStore) : list BlogEntry :=
  let blogs := getCollection_blog st in
  let publishedBlogs :=
    Lodash.orderBy
      (filter (λ blog, negb (isDraft (data blog))) blogs)
      (λ blog, pubDate (data blog))
      Lodash.desc in
  publishedBlogs.

Definition getCategoriesWithBlogs (st : ContentStore)
    : list (CategoryEntry * list BlogEntry) :=
  let blogs := getPublishedBlogs st in
  let categories := getCollection_category st in
  (λ category0,
     let blogsOfCategory :=
       filter (λ blog, ref_id (category (data blog)) = id category0) blogs in
     (category0, blogsOfCategory)) <$> categories.

(** The body of [tags.forEach] at one tag, on the [tagMap] so far. *)
Definition addTag (blog : BlogEntry) (tag : string)
    (tagMap : JS.object (list BlogEntry))
    : JS.completion (JS.object (list BlogEntry)) :=
  (* if (!tagMap[tag]) { tagMap[tag] = []; } *)
  let tagMap :=
    if negb (JS.ToBoolean (JS.Get tagMap tag)) then JS.Set_ tagMap tag []
    else tagMap in
  (* tagMap[tag].push(blog); *)
  match JS.Get tagMap tag with
  | JS.own array => JS.normal (JS.Set_ tagMap tag (array ++ [blog]))
  | JS.inherited | JS.undefined => JS.throw JS.TypeError
  end.

Definition getTagsWithBlogs (st : ContentStore)
    : JS.completion (list (string * list BlogEntry)) :=
  let blogs := getPublishedBlogs st in
  tagMap ← JS.forEach blogs
              (λ blog tagMap,
                 let tags := default [] (tags (data blog)) in
                 JS.forEach tags (addTag blog) tagMap)
              [];
  mret (JS.Object_entries tagMap).


(** ** src/consts.ts *)

Record BlogCategory := { bc_id : string; bc_slug : string; bc_name : string }.

Definition BLOG_CATEGORIES : list BlogCategory :=
  [ {| bc_id := "tech"; bc_slug := "tech"; bc_name := "Tech" |};
    {| bc_id := "scratch"; bc_slug := "scratch"; bc_name := "Scratch" |};
    {| bc_id := "design"; bc_slug := "design"; bc_name := "Design" |} ].

(** ** The collections: [defineCollection] *)

Module Schema.

(** A parsed frontmatter value. Numbers are the integral ones; a [VDate]
    carries its time value, [None] for an invalid date. *)
Local Unset Elimination Schemes.
Inductive value :=
| VUndefined
| VNull
| VBool (b : bool)
| VNum (n : Z)
| VStr (s : string)
| VDate (t : option Z)
| VArr (items : list value)
| VObj (fields : list (string * value)).
Local Set Elimination Schemes.

(** [input[key]]: [undefined] when the key is absent. *)
Fixpoint prop (fields : list (string * value)) (key : string) : value :=
  match fields with
  | [] => VUndefined
  | (k, v) :: rest => if decide (k = key) then v else prop rest key
  end.

(** What the schema takes from outside this repository: the [image]
    helper the schema callback receives, [reference] of astro:content,
    and the implementation-defined part of [new Date(v)] (a string, or an
    array or object converted to one, handed to [Date.parse]). *)
Record Host := {
  image : string → option string;
  reference : string → value → option Reference;
  Date_parse : value → option Z;
}.

(** A zod type: the parsed output, or [None] for a validation issue. *)
Definition ZodType (T : Type) := value → option T.

Definition z_string : ZodType string := λ v,
  match v with VStr s => Some s | _ => None end.

Definition z_boolean : ZodType bool := λ v,
  match v with VBool b => Some b | _ => None end.

(** The time value of [new Date(v)], [None] when it is [NaN]. *)
Definition new_Date (h : Host) (v : value) : option Z :=
  match v with
  | VUndefined => None
  | VNull => Some 0
  | VBool b => Some (if b then 1 else 0)
  | VNum n => if decide (Z.abs n ≤ 8640000000000000) then Some n else None
  | VDate t => t
  | VStr _ | VArr _ | VObj _ => Date_parse h v
  end.

(** [z.coerce.date()]: coerce with [new Date], reject an invalid date. *)
Definition z_coerce_date (h : Host) : ZodType Z := new_Date h.

Definition z_array {T} (t : ZodType T) : ZodType (list T) := λ v,
  match v with VArr items => mapM t items | _ => None end.

Definition optional {T} (t : ZodType T) : ZodType (option T) := λ v,
  match v with VUndefined => Some None | _ => Some <$> t v end.

Definition default_ {T} (t : ZodType T) (d : T) : ZodType T := λ v,
  match v with VUndefined => Some d | _ => t v end.

(** [image()]: a string, resolved by the host. *)
Definition z_image (h : Host) : ZodType string := λ v,
  match v with VStr s => image h s | _ => None end.

(** The outcome of parsing a record: the data, or the keys with an
    issue ([[]] names the record itself). An issue inside a field, such as
    one at an element of [tags], is recorded at the key of the field; the
    list is kept key by key as the schema is written, and only what it
    holds is meant, not the order validation reports it in. *)
Inductive SafeParse (T : Type) :=
| success (d : T)
| failure (issues : list (list string)).
Arguments success {T} _.
Arguments failure {T} _.

Definition issue {T} (key : string) (r : option T) : list (list string) :=
  match r with Some _ => [] | None => [[key]] end.

(** The schema of the [blog] collection. *)
Definition blog_schema (h : Host) (input : value) : SafeParse BlogData :=
  match input with
  | VObj fields =>
      let r_title := z_string (prop fields "title") in
      let r_description := z_string (prop fields "description") in
      let r_pubDate := z_coerce_date h (prop fields "pubDate") in
      let r_updatedDate :=
        optional (z_coerce_date h) (prop fields "updatedDate") in
      let r_isDraft := default_ z_boolean false (prop fields "isDraft") in
      let r_heroImage := optional (z_image h) (prop fields "heroImage") in
      let r_category := reference h "category" (prop fields "category") in
      let r_tags := optional (z_array z_string) (prop fields "tags") in
      let parsed :=
        title ← r_title; description ← r_description;
        pubDate ← r_pubDate; updatedDate ← r_updatedDate;
        isDraft ← r_isDraft; heroImage ← r_heroImage;
        category ← r_category; tags ← r_tags;
        Some {| title := title; description := description;
                pubDate := pubDate; updatedDate := updatedDate;
                isDraft := isDraft; heroImage := heroImage;
                category := category; tags := tags |} in
      match parsed with
      | Some d => success d
      | None =>
          failure (issue "title" r_title ++ issue "description" r_description
                   ++ issue "pubDate" r_pubDate
                   ++ issue "updatedDate" r_updatedDate
                   ++ issue "isDraft" r_isDraft
                   ++ issue "heroImage" r_heroImage
                   ++ issue "category" r_category ++ issue "tags" r_tags)
      end
  | _ => failure [[]]
  end.

(** The schema of the [category] collection. *)
Definition category_schema (input : value) : SafeParse CategoryData :=
  match input with
  | VObj fields =>
      let r_slug := z_string (prop fields "slug") in
      let r_name := z_string (prop fields "name") in
      match r_slug, r_name with
      | Some s, Some n => success {| slug := s; name := n |}
      | _, _ => failure (issue "slug" r_slug ++ issue "name" r_name)
      end
  | _ => failure [[]]
  end.

(** The loader of the [category] collection, [() => [...BLOG_CATEGORIES]],
    and the entries the collection holds after validation. *)
Definition category_loader : list (string * value) :=
  (λ c, (bc_id c,
         VObj [("id", VStr (bc_id c)); ("slug", VStr (bc_slug c));
               ("name", VStr (bc_name c))])) <$> BLOG_CATEGORIES.

Definition category_collection : list CategoryEntry :=
  omap (λ '(i, v),
          match category_schema v with
          | success d => Some {| id := i; data := d |}
          | failure _ => None
          end) category_loader.

End Schema.

(** ** The properties' vocabulary *)

(** A post's tags as [getTagsWithBlogs] reads them: [blog.data.tags ?? []]. *)
Definition tagsOf (blog : BlogEntry) : list string :=
  default [] (tags (data blog)).

(** The tags met while walking a list of posts in order and, within each
    post, its tags in order; each with the post that carries it. *)
Definition tagWalk (blogs : list BlogEntry) : list (string * BlogEntry) :=
  blogs ≫= (λ blog, (λ tag, (tag, blog)) <$> tagsOf blog).

(** The distinct elements of a list, in order of first appearance. *)
Fixpoint first_appearance (l : list string) : list string :=
  match l with
  | [] => []
  | x :: l' => x :: filter (λ y, y ≠ x) (first_appearance l')
  end.

(** The posts of a walk that carry [tag], in the order of the walk. *)
Definition bucket (tag : string) (walk : list (string * BlogEntry))
    : list BlogEntry :=
  snd <$> filter (λ tb, tb.1 = tag) walk.

(** The [tagMap] a walk builds: one own property per tag, created at the
    tag's first appearance. *)
Definition tagMap_of (walk : list (string * BlogEntry))
    : JS.object (list BlogEntry) :=
  (λ tag, (tag, bucket tag walk)) <$> first_appearance (fst <$> walk).

(** [a] is at least as recent as [b]. *)
Definition newest_first : relation BlogEntry :=
  λ a b, pubDate (data b) ≤ pubDate (data a).

Global Instance newest_first_dec (a b : BlogEntry) :
  Decision (newest_first a b).
Proof. unfold newest_first. apply _. Defined.

(** [x] occurs before [y] in [l]. *)
Definition precedes {A} (x y : A) (l : list A) : Prop :=
  ∃ l1 l2 l3, l = l1 ++ x :: l2 ++ y :: l3.

(** The number of occurrences of [x] in [l]. *)
Definition count {A} `{EqDecision A} (x : A) (l : list A) : nat :=
  length (filter (λ y, y = x) l).

(** A tag is safe when it does not name a property of [Object.prototype]. *)
Definition safe_tag (tag : string) : Prop := tag ∉ JS.Object_prototype.

Global Instance safe_tag_dec (tag : string) : Decision (safe_tag tag).
Proof. unfold safe_tag. apply _. Defined.

(** ** Sample content *)

Definition mkBlog (i : string) (d : Z) (draft : bool) (c : string)
    (ts : option (list string)) : BlogEntry :=
  {| id := i;
     data := {| title := i; description := EmptyString; pubDate := d;
                updatedDate := None; isDraft := draft; heroImage := None;
                category := {| ref_collection := "category"; ref_id := c |};
                tags := ts |} |}.

(** Four posts: [A], [B] and [C] are published, [D] is a draft. *)
Definition postA : BlogEntry :=
  mkBlog "A" 1757030400000 false "tech" (Some ["js"]).
Definition postB : BlogEntry :=
  mkBlog "B" 1756857600000 false "tech" (Some ["js"; "css"]).
Definition postC : BlogEntry :=
  mkBlog "C" 1756684800000 false "design" None.
Definition postD : BlogEntry :=
  mkBlog "D" 1757116800000 true "tech" None.

(** A post published on the day of [B], and one that refers to a category
    the collection does not have. *)
Definition postE : BlogEntry :=
  mkBlog "E" 1756857600000 false "scratch" (Some ["css"; "css"]).
Definition postF : BlogEntry :=
  mkBlog "F" 1756771200000 false "news" None.

(** A post with a tag that is an array index, and one with a tag that
    names a property of [Object.prototype]. *)
Definition postY : BlogEntry :=
  mkBlog "Y" 1757030400000 false "tech" (Some ["js"; "2024"]).
Definition postK : BlogEntry :=
  mkBlog "K" 1757030400000 false "tech" (Some ["constructor"]).

Definition sample_store : ContentStore :=
  {| getCollection_blog := [postC; postD; postB; postE; postA];
     getCollection_category := Schema.category_collection |}.

Definition stray_store : ContentStore :=
  {| getCollection_blog := [postF; postA];
     getCollection_category := Schema.category_collection |}.

Definition year_store : ContentStore :=
  {| getCollection_blog := [postY];
     getCollection_category := Schema.category_collection |}.

Definition constructor_store : ContentStore :=
  {| getCollection_blog := [postK];
     getCollection_category := Schema.category_collection |}.

(** A host that resolves every image path to itself, reads a string as a
    reference into the collection and parses no string as a date; the
    records below carry their dates as dates. *)
Definition sample_host : Schema.Host :=
  {| Schema.image := λ path, Some path;
     Schema.reference := λ collection v,
       match v with
       | Schema.VStr s => Some {| ref_collection := collection; ref_id := s |}
       | _ => None
       end;
     Schema.Date_parse := λ _, None |}.

(** A frontmatter with the required fields only, under a given title. *)
Definition frontmatter_fields (t : Schema.value)
    : list (string * Schema.value) :=
  [("title", t); ("description", Schema.VStr "About");
   ("pubDate", Schema.VDate (Some 1757030400000));
   ("category", Schema.VStr "tech")].

Definition frontmatter (t : Schema.value) : Schema.value :=
  Schema.VObj (frontmatter_fields t).

Definition frontmatter_data (t : string) : BlogData :=
  {| title := t; description := "About"; pubDate := 1757030400000;
     updatedDate := None; isDraft := false; heroImage := None;
     category := {| ref_collection := "category"; ref_id := "tech" |};
     tags := None |}.

(** [d] with its title replaced. *)
Definition with_title (d : BlogData) (t : string) : BlogData :=
  {| title := t; description := description d; pubDate := pubDate d;
     updatedDate := updatedDate d; isDraft := isDraft d;
     heroImage := heroImage d; category := category d; tags := tags d |}.

(** ** Stores derived from a store *)

(** The store with other posts under the same categories. *)
Definition with_blogs (st : ContentStore) (blogs : list BlogEntry)
    : ContentStore :=
  {| getCollection_blog := blogs;
     getCollection_category := getCollection_category st |}.

(** The store restricted to the posts that refer to the category [c]. *)
Definition posts_of_category (st : ContentStore) (c : string) : ContentStore :=
  with_blogs st
    (filter (λ blog, ref_id (category (data blog)) = c)
       (getCollection_blog st)).

(** The store of this site: any posts, under the categories the loader
    yields from [BLOG_CATEGORIES]. *)
Definition site_store (blogs : list BlogEntry) : ContentStore :=
  {| getCollection_blog := blogs;
     getCollection_category := Schema.category_collection |}.

(** The keys the blog schema reads. *)
Definition blog_schema_keys : list string :=
  ["title"; "description"; "pubDate"; "updatedDate"; "isDraft"; "heroImage";
   "category"; "tags"].

(** A store of drafts only. *)
Definition drafts_store : ContentStore :=
  {| getCollection_blog := [postD];
     getCollection_category := Schema.category_collection |}.

(** The sample posts without the draft, newest first. *)
Definition sorted_store : ContentStore :=
  {| getCollection_blog := [postA; postB; postE; postC];
     getCollection_category := Schema.category_collection |}.

(** The issues of a record, field by field. *)
Definition blog_issues (h : Schema.Host) (fields : list (string * Schema.value))
    : list (list string) :=
  Schema.issue "title" (Schema.z_string (Schema.prop fields "title"))
  ++ Schema.issue "description"
       (Schema.z_string (Schema.prop fields "description"))
  ++ Schema.issue "pubDate"
       (Schema.z_coerce_date h (Schema.prop fields "pubDate"))
  ++ Schema.issue "updatedDate"
       (Schema.optional (Schema.z_coerce_date h)
          (Schema.prop fields "updatedDate"))
  ++ Schema.issue "isDraft"
       (Schema.default_ Schema.z_boolean false (Schema.prop fields "isDraft"))
  ++ Schema.issue "heroImage"
       (Schema.optional (Schema.z_image h) (Schema.prop fields "heroImage"))
  ++ Schema.issue "category"
       (Schema.reference h "category" (Schema.prop fields "category"))
  ++ Schema.issue "tags"
       (Schema.optional (Schema.z_array Schema.z_string)
          (Schema.prop fields "tags")).

(** [d] with its tags replaced. *)
Definition with_tags (d : BlogData) (ts : option (list string)) : BlogData :=
  {| title := title d; description := description d; pubDate := pubDate d;
     updatedDate := updatedDate d; isDraft := isDraft d;
     heroImage := heroImage d; category := category d; tags := ts |}.

(** A store that holds the entry of the sample frontmatter. *)
Definition hello_store : ContentStore :=
  {| getCollection_blog :=
       [postC; {| id := "hello"; data := frontmatter_data "Hello" |}];
     getCollection_category := Schema.category_collection |}.

(** The sample frontmatter with a key the schema does not have. *)
Definition frontmatter_with_layout : list (string * Schema.value) :=
  ("layout", Schema.VStr "wide") :: frontmatter_fields (Schema.VStr "Hello").

(** * Facts about lists *)

Section list_facts.
Context {A : Type}.

Lemma StronglySorted_member_impl (R R' : relation A) (l : list A) :
  (∀ x y, x ∈ l → y ∈ l → R x y → R' x y) →
  StronglySorted R l → StronglySorted R' l.
Proof.
  intros Himp Hs. induction Hs as [|x l Hs IH Hx]; constructor.
  - apply IH. intros a b Ha Hb. apply Himp; by right.
  - rewrite Forall_forall in Hx |- *. intros y Hy.
    apply Himp; [by left | by right | by apply Hx].
Qed.

Lemma StronglySorted_filter (R : relation A) (P : A → Prop)
    `{∀ x, Decision (P x)} (l : list A) :
  StronglySorted R l → StronglySorted R (filter P l).
Proof.
  induction 1 as [|x l Hs IH Hx]; [constructor|].
  rewrite filter_cons. destruct (decide (P x)); [|done].
  constructor; [done|].
  rewrite Forall_forall in Hx |- *. intros y Hy.
  apply list_elem_of_filter in Hy as [_ Hy]. by apply Hx.
Qed.

Lemma filter_fmap_member {B} (g : A → B) (P : A → Prop) (Q : B → Prop)
    `{∀ x, Decision (P x)} `{∀ y, Decision (Q y)} (l : list A) :
  (∀ x, x ∈ l → P x ↔ Q (g x)) →
  g <$> filter P l = filter Q (g <$> l).
Proof.
  induction l as [|x l IH]; intros HPQ; [done|].
  rewrite fmap_cons, !filter_cons.
  assert (P x ↔ Q (g x)) as Hx by (apply HPQ; by left).
  rewrite <-IH by (intros y Hy; apply HPQ; by right).
  destruct (decide (P x)), (decide (Q (g x))); tauto || done.
Qed.

Lemma filter_Forall_id (P : A → Prop) `{∀ x, Decision (P x)} (l : list A) :
  Forall P l → filter P l = l.
Proof.
  induction 1 as [|x l Hx _ IH]; [done|]. by rewrite filter_cons_True, IH.
Qed.

Lemma filter_Forall_nil (P : A → Prop) `{∀ x, Decision (P x)} (l : list A) :
  Forall (λ x, ¬ P x) l → filter P l = [].
Proof.
  induction 1 as [|x l Hx _ IH]; [done|]. by rewrite filter_cons_False.
Qed.

Lemma Sorted_lookup (R : relation A) (l : list A) i a b :
  Sorted R l → l !! i = Some a → l !! S i = Some b → R a b.
Proof.
  intros Hs. revert i. induction Hs as [|x l Hs IH Hx]; intros i Ha Hb.
  - done.
  - destruct i as [|i]; simpl in *.
    + simplify_eq. destruct Hx as [|y l Hxy]; simplify_eq/=. done.
    + by eapply IH.
Qed.

Lemma precedes_filter (P : A → Prop) `{∀ x, Decision (P x)} x y l :
  P x → P y → precedes x y l → precedes x y (filter P l).
Proof.
  intros Hx Hy (l1 & l2 & l3 & ->).
  exists (filter P l1), (filter P l2), (filter P l3).
  rewrite filter_app, filter_cons_True, filter_app, filter_cons_True; done.
Qed.

Lemma filter_app_inv (P : A → Prop) `{∀ x, Decision (P x)} l m1 m2 :
  filter P l = m1 ++ m2 →
  ∃ l1 l2, l = l1 ++ l2 ∧ filter P l1 = m1 ∧ filter P l2 = m2.
Proof.
  revert m1. induction l as [|x l IH]; intros m1 Hf.
  - symmetry in Hf. apply app_eq_nil in Hf as [-> ->]. by exists [], [].
  - rewrite filter_cons in Hf. destruct (decide (P x)) as [HP|HP].
    + destruct m1 as [|z m1]; simpl in Hf.
      * exists [], (x :: l). split_and!; [done..|].
        by rewrite filter_cons_True.
      * injection Hf as -> Hf. destruct (IH _ Hf) as (l1 & l2 & -> & <- & <-).
        exists (z :: l1), l2. split_and!; [done| |done].
        by rewrite filter_cons_True.
    + destruct (IH _ Hf) as (l1 & l2 & -> & <- & <-).
      exists (x :: l1), l2. split_and!; [done| |done].
      by rewrite filter_cons_False.
Qed.

Lemma filter_cons_inv (P : A → Prop) `{∀ x, Decision (P x)} l x m :
  filter P l = x :: m →
  ∃ l1 l2, l = l1 ++ x :: l2 ∧ filter P l2 = m.
Proof.
  induction l as [|z l IH]; intros Hf; [done|].
  rewrite filter_cons in Hf. destruct (decide (P z)).
  - injection Hf as -> Hf. by exists [], l.
  - destruct (IH Hf) as (l1 & l2 & -> & <-). by exists (z :: l1), l2.
Qed.

Lemma precedes_filter_inv (P : A → Prop) `{∀ x, Decision (P x)} x y l :
  precedes x y (filter P l) → precedes x y l.
Proof.
  intros (m1 & m2 & m3 & Hf).
  apply filter_app_inv in Hf as (l1 & la & -> & _ & Hf).
  apply filter_cons_inv in Hf as (l1b & lb & -> & Hf).
  apply filter_app_inv in Hf as (l2 & lc & -> & _ & Hf).
  apply filter_cons_inv in Hf as (l2b & l3 & -> & _).
  exists (l1 ++ l1b), (l2 ++ l2b), l3. by rewrite <-!app_assoc.
Qed.

End list_facts.

(** * lodash: what [_.orderBy] returns *)

Section orderBy_facts.
Context {A : Type} (iteratee : A → Z).
Import Lodash.

Lemma before_compareMultiple ord (a b : sortable A) :
  before (compareMultiple ord) a b ↔
  key_before ord (criteria a) (criteria b)
  ∨ (criteria a = criteria b ∧ (index a ≤ index b)%nat).
Proof.
  unfold before, compareMultiple, compareAscending, key_before.
  destruct (Z.gtb_spec (criteria a) (criteria b)) as [Hgt|Hle];
    [|destruct (Z.ltb_spec (criteria a) (criteria b)) as [Hlt|Hge]];
    destruct ord; simpl; lia.
Qed.

Global Instance before_compareMultiple_total ord :
  Total (before (@compareMultiple A ord)).
Proof.
  intros a b. rewrite !before_compareMultiple.
  destruct ord; simpl; lia.
Qed.

Global Instance before_compareMultiple_trans ord :
  Transitive (before (@compareMultiple A ord)).
Proof.
  intros a b c. rewrite !before_compareMultiple.
  destruct ord; simpl; lia.
Qed.

Lemma elem_of_baseMap (l : list A) (x : sortable A) :
  x ∈ baseMap iteratee l →
  l !! index x = Some (value x) ∧ criteria x = iteratee (value x).
Proof.
  unfold baseMap. intros Hx.
  apply elem_of_lookup_imap_1 in Hx as (i & v & -> & Hi). done.
Qed.

Lemma baseMap_index_inj (l : list A) (x y : sortable A) :
  x ∈ baseMap iteratee l → y ∈ baseMap iteratee l →
  index x = index y → x = y.
Proof.
  intros [Hx Hcx]%elem_of_baseMap [Hy Hcy]%elem_of_baseMap Hi.
  destruct x as [cx ix vx], y as [cy iy vy]; simpl in *. subst iy.
  rewrite Hx in Hy. injection Hy as ->. by subst.
Qed.

Lemma value_baseMap (l : list A) : value <$> baseMap iteratee l = l.
Proof.
  unfold baseMap. rewrite fmap_imap.
  rewrite (imap_ext _ (const (λ v : A, v))) by done.
  by rewrite imap_const, list_fmap_id.
Qed.

Lemma baseMap_index_sorted (l : list A) :
  StronglySorted (λ a b, (index a < index b)%nat) (baseMap iteratee l).
Proof.
  unfold baseMap.
  cut (∀ k, StronglySorted (λ a b : sortable A, (index a < index b)%nat)
         (imap (λ i v, {| criteria := iteratee v; index := k + i;
                         value := v |}) l)).
  { intros Hk. apply (Hk 0%nat). }
  induction l as [|x l IH]; intros k; [constructor|].
  rewrite imap_cons. constructor.
  - rewrite (imap_ext _ (λ i v, {| criteria := iteratee v;
                                  index := S k + i; value := v |})).
    + apply IH.
    + intros i v _. simpl. f_equal. lia.
  - apply Forall_forall. intros y Hy.
    apply elem_of_lookup_imap_1 in Hy as (i & v & -> & _). simpl. lia.
Qed.

Lemma sorted_array_Permutation ord l :
  sorted_array iteratee ord l ≡ₚ baseMap iteratee l.
Proof. apply merge_sort_Permutation. Qed.

Lemma sorted_array_sorted ord l :
  StronglySorted (before (compareMultiple ord)) (sorted_array iteratee ord l).
Proof. apply (StronglySorted_merge_sort _). Qed.

Lemma elem_of_sorted_array ord l x :
  x ∈ sorted_array iteratee ord l → x ∈ baseMap iteratee l.
Proof. by rewrite sorted_array_Permutation. Qed.

Lemma orderBy_Permutation ord (l : list A) : orderBy l iteratee ord ≡ₚ l.
Proof.
  unfold orderBy, baseSortBy. fold (sorted_array iteratee ord l).
  rewrite sorted_array_Permutation. by rewrite value_baseMap.
Qed.

(** Whatever algorithm the engine sorts with, [orderBy] answers the
    same: the comparer orders the decorated elements totally. *)
Lemma orderBy_any_sort ord (l : list A) (s : list (sortable A)) :
  s ≡ₚ baseMap iteratee l →
  Sorted (before (compareMultiple ord)) s →
  value <$> s = orderBy l iteratee ord.
Proof.
  intros Hp Hs. unfold orderBy, baseSortBy. fold (sorted_array iteratee ord l).
  f_equal. apply (Sorted_unique_strong (before (compareMultiple ord))).
  - intros x y Hx Hy Hxy Hyx.
    apply (baseMap_index_inj l); [by rewrite <-Hp| |].
    + by apply (elem_of_sorted_array ord).
    + apply before_compareMultiple in Hxy, Hyx.
      destruct ord; simpl in *; lia.
  - done.
  - apply Sorted.StronglySorted_Sorted, sorted_array_sorted.
  - by rewrite sorted_array_Permutation.
Qed.

Lemma orderBy_desc_sorted (l : list A) :
  StronglySorted (λ a b, iteratee b ≤ iteratee a) (orderBy l iteratee desc).
Proof.
  unfold orderBy, baseSortBy. fold (sorted_array iteratee desc l).
  apply StronglySorted_fmap with
    (R1 := λ a b : sortable A, iteratee (value b) ≤ iteratee (value a));
    [done|].
  eapply StronglySorted_member_impl; [|apply sorted_array_sorted].
  intros x y Hx%elem_of_sorted_array Hy%elem_of_sorted_array Hxy.
  apply elem_of_baseMap in Hx as [_ <-], Hy as [_ <-].
  apply before_compareMultiple in Hxy. simpl in Hxy. lia.
Qed.

(** Stability: among the elements with one key, the order of the input
    is kept. *)
Lemma orderBy_desc_stable (l : list A) (d : Z) :
  filter (λ x, iteratee x = d) (orderBy l iteratee desc)
  = filter (λ x, iteratee x = d) l.
Proof.
  unfold orderBy, baseSortBy. fold (sorted_array iteratee desc l).
  rewrite <-(value_baseMap l) at 2.
  rewrite <-!(filter_fmap_member value (λ x, criteria x = d)
                (λ x, iteratee x = d)).
  - f_equal.
    apply (StronglySorted_unique_strong
             (λ a b : sortable A, (index a ≤ index b)%nat)).
    + intros x y [_ Hx]%list_elem_of_filter [_ Hy]%list_elem_of_filter ??.
      apply (baseMap_index_inj l);
        [by apply (elem_of_sorted_array desc)|done|lia].
    + eapply StronglySorted_member_impl;
        [|apply StronglySorted_filter, sorted_array_sorted].
      intros x y [Hx _]%list_elem_of_filter [Hy _]%list_elem_of_filter Hxy.
      apply before_compareMultiple in Hxy. simpl in Hxy. lia.
    + eapply StronglySorted_member_impl;
        [|apply StronglySorted_filter, baseMap_index_sorted].
      intros x y _ _ Hxy. simpl in Hxy. lia.
    + by rewrite sorted_array_Permutation.
  - intros x Hx. try apply elem_of_sorted_array in Hx.
    apply elem_of_baseMap in Hx as [_ ->]. done.
  - intros x Hx. try apply elem_of_sorted_array in Hx.
    apply elem_of_baseMap in Hx as [_ ->]. done.
Qed.

End orderBy_facts.

(** * The published-posts view *)

Lemma not_draft_iff (blog : BlogEntry) :
  negb (isDraft (data blog)) ↔ isDraft (data blog) = false.
Proof. by destruct (isDraft (data blog)). Qed.

Lemma getPublishedBlogs_Permutation (st : ContentStore) :
  getPublishedBlogs st
  ≡ₚ filter (λ blog, isDraft (data blog) = false) (getCollection_blog st).
Proof.
  unfold getPublishedBlogs. rewrite orderBy_Permutation.
  by rewrite (list_filter_iff _ _ _ not_draft_iff).
Qed.

Lemma getPublishedBlogs_sorted (st : ContentStore) :
  StronglySorted newest_first (getPublishedBlogs st).
Proof. apply (orderBy_desc_sorted (λ blog : BlogEntry, pubDate (data blog))). Qed.

Lemma getPublishedBlogs_same_date (st : ContentStore) (d : Z) :
  filter (λ blog, pubDate (data blog) = d) (getPublishedBlogs st)
  = filter (λ blog, pubDate (data blog) = d)
      (filter (λ blog, isDraft (data blog) = false) (getCollection_blog st)).
Proof.
  unfold getPublishedBlogs.
  rewrite (orderBy_desc_stable (λ blog : BlogEntry, pubDate (data blog))).
  by rewrite (list_filter_iff _ _ _ not_draft_iff).
Qed.

(** C1. Whatever the posts of the content store, [getPublishedBlogs]
    returns exactly the posts whose [isDraft] is false, each as often as the
    store holds it, and so no post whose [isDraft] is true. *)
Theorem getPublishedBlogs_exactly_published (st : ContentStore) :
  getPublishedBlogs st
  ≡ₚ filter (λ blog, isDraft (data blog) = false) (getCollection_blog st)
  ∧ Forall (λ blog, isDraft (data blog) ≠ true) (getPublishedBlogs st).
Proof.
  split; [apply getPublishedBlogs_Permutation|].
  apply Forall_forall. intros blog Hin.
  rewrite getPublishedBlogs_Permutation in Hin.
  apply list_elem_of_filter in Hin as [Hd _]. by rewrite Hd.
Qed.

(** C2. In the output of [getPublishedBlogs] every post is followed by a
    post that is not more recent: of two adjacent posts the earlier one has
    the greater or equal publish date. *)
Theorem getPublishedBlogs_adjacent (st : ContentStore) (i : nat)
    (a b : BlogEntry) :
  getPublishedBlogs st !! i = Some a →
  getPublishedBlogs st !! S i = Some b →
  pubDate (data a) >= pubDate (data b).
Proof.
  intros Ha Hb. apply Z.le_ge.
  apply (Sorted_lookup newest_first (getPublishedBlogs st) i a b);
    [|done..].
  apply Sorted.StronglySorted_Sorted, getPublishedBlogs_sorted.
Qed.

(** C3. [getPublishedBlogs] sorts stably: the non-draft posts of one
    publish date come out in the order the store lists them, so of two such
    posts one precedes the other in the output exactly when it does in the
    store. *)
Theorem getPublishedBlogs_stable (st : ContentStore) (p q : BlogEntry) :
  isDraft (data p) = false → isDraft (data q) = false →
  pubDate (data p) = pubDate (data q) →
  precedes p q (getPublishedBlogs st) ↔ precedes p q (getCollection_blog st).
Proof.
  intros Hp Hq Hpq.
  pose proof (getPublishedBlogs_same_date st (pubDate (data p))) as Hsame.
  split; intros Hpre.
  - apply (precedes_filter (λ blog, pubDate (data blog) = pubDate (data p)))
      in Hpre; [|done..].
    rewrite Hsame in Hpre.
    by apply precedes_filter_inv, precedes_filter_inv in Hpre.
  - apply (precedes_filter (λ blog, isDraft (data blog) = false))
      in Hpre; [|done..].
    apply (precedes_filter (λ blog, pubDate (data blog) = pubDate (data p)))
      in Hpre; [|done..].
    rewrite <-Hsame in Hpre. by apply precedes_filter_inv in Hpre.
Qed.

(** * Posts by category *)

Section counting.
Context {A K : Type} `{EqDecision K} (key : A → K).

Lemma sum_length_filter_keys (ks : list K) (l : list A) :
  NoDup ks →
  sum_list ((λ k, length (filter (λ x, key x = k) l)) <$> ks)
  = length (filter (λ x, key x ∈ ks) l).
Proof.
  induction 1 as [|k ks Hk Hnd IH]; csimpl.
  - induction l as [|x l IHl]; [done|].
    rewrite filter_cons_False; [done|]. by intros ?%elem_of_nil.
  - rewrite IH. clear IH. induction l as [|x l IHl]; [done|].
    rewrite !filter_cons.
    destruct (decide (key x = k)) as [Hxk|Hxk],
      (decide (key x ∈ ks)) as [Hin|Hin],
      (decide (key x ∈ k :: ks)) as [Hc|Hc]; simpl; try lia; exfalso.
    + apply Hk. by rewrite <-Hxk.
    + apply Hk. by rewrite <-Hxk.
    + apply Hc. rewrite Hxk. by left.
    + apply Hc. by right.
    + by apply elem_of_cons in Hc as [?|?].
Qed.

Lemma length_filter_eq (P : A → Prop) `{∀ x, Decision (P x)} (l : list A) :
  length (filter P l) = length l ↔ Forall P l.
Proof.
  induction l as [|x l IH]; [by split|].
  rewrite filter_cons, Forall_cons. pose proof (length_filter P l).
  destruct (decide (P x)); simpl.
  - rewrite <-IH. split; [intros; split; [done|lia] | intros [_ ?]; lia].
  - split; [lia | by intros [? _]].
Qed.

End counting.

Lemma getCategoriesWithBlogs_total (st : ContentStore) :
  sum_list ((λ cb, length cb.2) <$> getCategoriesWithBlogs st)
  = sum_list ((λ k, length (filter (λ blog : BlogEntry,
                                      ref_id (category (data blog)) = k)
                              (getPublishedBlogs st)))
              <$> (id <$> getCollection_category st)).
Proof.
  unfold getCategoriesWithBlogs. rewrite <-!list_fmap_compose. done.
Qed.

(** C5. [getCategoriesWithBlogs] returns one pair per category of the
    category collection, in the collection's order; the posts of a pair are
    empty exactly when no published post refers to its category, and such
    a category is still listed. *)
Theorem getCategoriesWithBlogs_one_per_category (st : ContentStore) :
  fst <$> getCategoriesWithBlogs st = getCollection_category st
  ∧ Forall (λ cb, cb.2 = [] ↔
                  ∀ blog, blog ∈ getPublishedBlogs st →
                          ref_id (category (data blog)) ≠ id cb.1)
      (getCategoriesWithBlogs st).
Proof.
  unfold getCategoriesWithBlogs. split.
  - rewrite <-list_fmap_compose. apply list_fmap_id.
  - apply Forall_fmap, Forall_forall. intros c _. simpl. split.
    + intros Hnil blog Hin Heq.
      by pose proof (filter_nil_not_elem_of _ _ blog Hnil Heq).
    + intros Hno. induction (getPublishedBlogs st) as [|b bs IH]; [done|].
      rewrite filter_cons_False by (apply Hno; left).
      apply IH. intros blog Hin. apply Hno. by right.
Qed.

(** C6. When the categories have distinct identifiers, the post counts of
    the pairs of [getCategoriesWithBlogs] add up to at most the number of
    published posts, and to exactly that number if and only if every
    published post refers to the identifier of a category of the
    collection. *)
Theorem getCategoriesWithBlogs_counts (st : ContentStore) :
  NoDup (id <$> getCollection_category st) →
  (sum_list ((λ cb, length cb.2) <$> getCategoriesWithBlogs st)
   ≤ length (getPublishedBlogs st))%nat
  ∧ (sum_list ((λ cb, length cb.2) <$> getCategoriesWithBlogs st)
     = length (getPublishedBlogs st)
     ↔ Forall (λ blog, ref_id (category (data blog))
                       ∈ id <$> getCollection_category st)
         (getPublishedBlogs st)).
Proof.
  intros Hnd. rewrite getCategoriesWithBlogs_total.
  rewrite (sum_length_filter_keys
             (λ blog : BlogEntry, ref_id (category (data blog)))) by done.
  split; [apply length_filter | apply length_filter_eq].
Qed.

(** * Posts by tag *)

Section forEach_facts.
Context {A S : Type}.

Lemma forEach_app (l1 l2 : list A) (callback : A → S → JS.completion S) s :
  JS.forEach (l1 ++ l2) callback s
  = JS.forEach l1 callback s ≫= JS.forEach l2 callback.
Proof.
  revert s. induction l1 as [|x l1 IH]; intros s; [done|].
  simpl. destruct (callback x s) as [s'|e]; [apply IH | done].
Qed.

Lemma forEach_fmap {B} (g : B → A) (l : list B)
    (callback : A → S → JS.completion S) s :
  JS.forEach (g <$> l) callback s = JS.forEach l (λ x, callback (g x)) s.
Proof.
  revert s. induction l as [|x l IH]; intros s; [done|].
  simpl. destruct (callback (g x) s) as [s'|e]; [apply IH | done].
Qed.

End forEach_facts.

Lemma forEach_tagWalk (blogs : list BlogEntry) tagMap :
  JS.forEach blogs
    (λ blog tagMap,
       let tags := default [] (tags (data blog)) in
       JS.forEach tags (addTag blog) tagMap) tagMap
  = JS.forEach (tagWalk blogs) (λ tb, addTag tb.2 tb.1) tagMap.
Proof.
  revert tagMap. induction blogs as [|blog blogs IH]; intros tagMap; [done|].
  unfold tagWalk. rewrite bind_cons, forEach_app, forEach_fmap. simpl.
  fold (tagsOf blog).
  destruct (JS.forEach (tagsOf blog) _ tagMap) as [tagMap'|e]; [apply IH|done].
Qed.

Lemma elem_of_tagWalk (blogs : list BlogEntry) tag blog :
  (tag, blog) ∈ tagWalk blogs ↔ blog ∈ blogs ∧ tag ∈ tagsOf blog.
Proof.
  unfold tagWalk. rewrite list_elem_of_bind. split.
  - intros (b & Hin & Hb). apply list_elem_of_fmap in Hin as (t & [= -> ->] & Ht).
    done.
  - intros [Hb Ht]. exists blog. split; [|done].
    apply list_elem_of_fmap. by exists tag.
Qed.

(** ** First appearances *)

Lemma elem_of_first_appearance (l : list string) x :
  x ∈ first_appearance l ↔ x ∈ l.
Proof.
  induction l as [|y l IH]; [done|]. simpl.
  rewrite !elem_of_cons, list_elem_of_filter, IH.
  destruct (decide (x = y)); tauto.
Qed.

Lemma NoDup_first_appearance (l : list string) : NoDup (first_appearance l).
Proof.
  induction l as [|y l IH]; simpl; [constructor|].
  constructor; [|by apply NoDup_filter].
  rewrite list_elem_of_filter. by intros [Hne _].
Qed.

Lemma first_appearance_snoc (l : list string) x :
  first_appearance (l ++ [x])
  = if decide (x ∈ l) then first_appearance l else first_appearance l ++ [x].
Proof.
  induction l as [|y l IH]; [done|]. simpl. rewrite IH.
  destruct (decide (x ∈ l)) as [Hin|Hin],
    (decide (x ∈ y :: l)) as [Hin'|Hin']; try done.
  - destruct Hin'. by right.
  - apply elem_of_cons in Hin' as [->|?]; [|done].
    rewrite filter_app, filter_cons_False, filter_nil, app_nil_r; [done|].
    by intros ?.
  - rewrite filter_app, filter_cons_True; [done|].
    intros ->. apply Hin'. by left.
Qed.

(** ** Own properties of an object listed by key *)

Section keyed.
Context {V : Type} (g : string → V).

Lemma getOwn_keyed (ks : list string) (key : string) :
  JS.getOwn ((λ k, (k, g k)) <$> ks) key
  = if decide (key ∈ ks) then Some (g key) else None.
Proof.
  induction ks as [|k ks IH]; [done|]. csimpl. rewrite IH.
  destruct (decide (k = key)) as [->|Hne],
    (decide (key ∈ ks)) as [Hin|Hin],
    (decide (key ∈ _ :: ks)) as [Hin'|Hin']; try done.
  - destruct Hin'. by left.
  - destruct Hin'. by left.
  - destruct Hin'. by right.
  - by apply elem_of_cons in Hin' as [?|?].
Qed.

Lemma Set_keyed_own (ks : list string) (key : string) (v : V) :
  NoDup ks → key ∈ ks →
  JS.Set_ ((λ k, (k, g k)) <$> ks) key v
  = (λ k, (k, if decide (k = key) then v else g k)) <$> ks.
Proof.
  induction 1 as [|k ks Hk Hnd IH]; intros Hin; [by apply elem_of_nil in Hin|].
  csimpl. destruct (decide (k = key)) as [->|Hne].
  - f_equal. apply list_fmap_ext. intros i k Hki.
    rewrite decide_False; [done|].
    intros ->. apply Hk. by eapply list_elem_of_lookup_2.
  - f_equal. apply IH. by apply elem_of_cons in Hin as [?|?].
Qed.

End keyed.

Section object_facts.
Context {V : Type}.

Lemma getOwn_snoc (o : JS.object V) (key : string) (v : V) :
  JS.getOwn o key = None → JS.getOwn (o ++ [(key, v)]) key = Some v.
Proof.
  induction o as [|[k w] o IH]; simpl; intros Hnone.
  - by rewrite decide_True.
  - destruct (decide (k = key)); [done | by apply IH].
Qed.

Lemma Set_new (o : JS.object V) (key : string) (v : V) :
  JS.getOwn o key = None → JS.Set_ o key v = o ++ [(key, v)].
Proof.
  induction o as [|[k w] o IH]; simpl; intros Hnone; [done|].
  destruct (decide (k = key)); [done|]. by rewrite IH.
Qed.

Lemma Set_snoc (o : JS.object V) (key : string) (v v' : V) :
  JS.getOwn o key = None →
  JS.Set_ (o ++ [(key, v)]) key v' = o ++ [(key, v')].
Proof.
  induction o as [|[k w] o IH]; simpl; intros Hnone.
  - by rewrite decide_True.
  - destruct (decide (k = key)); [done|]. by rewrite IH.
Qed.

End object_facts.

(** ** The [tagMap] after a walk *)

Lemma bucket_snoc (tag : string) walk t (b : BlogEntry) :
  bucket tag (walk ++ [(t, b)])
  = bucket tag walk ++ (if decide (t = tag) then [b] else []).
Proof.
  unfold bucket. rewrite filter_app, fmap_app. f_equal.
  rewrite filter_cons, filter_nil. simpl. by destruct (decide (t = tag)).
Qed.

Lemma bucket_nil (tag : string) (walk : list (string * BlogEntry)) :
  tag ∉ fst <$> walk → bucket tag walk = [].
Proof.
  unfold bucket. induction walk as [|[t b] walk IH]; intros Hnot; [done|].
  rewrite filter_cons_False.
  - apply IH. intros ?. apply Hnot. by right.
  - simpl. intros ->. apply Hnot. by left.
Qed.

Lemma tagMap_of_snoc walk t (b : BlogEntry) :
  tagMap_of (walk ++ [(t, b)])
  = if decide (t ∈ fst <$> walk) then
      (λ k, (k, if decide (k = t) then bucket t walk ++ [b]
                else bucket k walk)) <$> first_appearance (fst <$> walk)
    else tagMap_of walk ++ [(t, [b])].
Proof.
  unfold tagMap_of. rewrite fmap_app. change (fst <$> [(t, b)]) with [t].
  rewrite first_appearance_snoc.
  destruct (decide (t ∈ fst <$> walk)) as [Hin|Hin].
  - apply list_fmap_ext. intros _ k _. rewrite bucket_snoc.
    destruct (decide (t = k)) as [->|Hne].
    + by rewrite decide_True.
    + rewrite decide_False by done. by rewrite app_nil_r.
  - rewrite fmap_app. simpl. f_equal.
    + apply list_fmap_ext. intros i k Hk. rewrite bucket_snoc.
      rewrite decide_False; [by rewrite app_nil_r|].
      intros ->. apply Hin.
      by eapply elem_of_first_appearance, list_elem_of_lookup_2.
    + rewrite bucket_snoc, decide_True by done. by rewrite bucket_nil.
Qed.

Lemma addTag_tagMap_of walk t (b : BlogEntry) :
  addTag b t (tagMap_of walk)
  = if decide (t ∈ fst <$> walk ∨ safe_tag t)
    then JS.normal (tagMap_of (walk ++ [(t, b)]))
    else JS.throw JS.TypeError.
Proof.
  rewrite tagMap_of_snoc. unfold addTag, JS.Get.
  assert (JS.getOwn (tagMap_of walk) t
          = if decide (t ∈ fst <$> walk) then Some (bucket t walk) else None)
    as Hown.
  { unfold tagMap_of. rewrite (getOwn_keyed (λ k, bucket k walk)).
    destruct (decide (t ∈ fst <$> walk)) as [Hin|Hin].
    - by rewrite decide_True by (by apply elem_of_first_appearance).
    - by rewrite decide_False by (by rewrite elem_of_first_appearance). }
  rewrite Hown. destruct (decide (t ∈ fst <$> walk)) as [Hin|Hin].
  - rewrite decide_True by (by left). simpl. rewrite Hown.
    f_equal. unfold tagMap_of.
    rewrite (Set_keyed_own (λ k, bucket k walk)); [done|..].
    + apply NoDup_first_appearance.
    + by apply elem_of_first_appearance.
  - unfold safe_tag. destruct (decide (t ∈ JS.Object_prototype)) as [Hp|Hp].
    + rewrite bool_decide_eq_true_2 by done. simpl. rewrite Hown.
      rewrite decide_False; [done|]. by intros [?|?].
    + rewrite bool_decide_eq_false_2 by done. simpl.
      rewrite Set_new, getOwn_snoc, Set_snoc by done.
      by rewrite decide_True by (by right).
Qed.

Lemma forEach_addTag (walk : list (string * BlogEntry)) :
  JS.forEach walk (λ tb, addTag tb.2 tb.1) []
  = if decide (Forall safe_tag (fst <$> walk))
    then JS.normal (tagMap_of walk)
    else JS.throw JS.TypeError.
Proof.
  induction walk as [|[t b] walk IH] using rev_ind; [done|].
  rewrite forEach_app, IH, fmap_app. simpl.
  destruct (decide (Forall safe_tag (fst <$> walk))) as [Hsafe|Hsafe]; simpl.
  - unfold mbind, JS.completion_bind. rewrite addTag_tagMap_of.
    destruct (decide (t ∈ fst <$> walk ∨ safe_tag t)) as [Hok|Hbad].
    + rewrite decide_True; [done|].
      apply Forall_app. split; [done|]. apply Forall_singleton.
      destruct Hok as [Hin|?]; [|done].
      by apply (proj1 (Forall_forall _ _) Hsafe).
    + rewrite decide_False; [done|].
      intros [_ Ht]%Forall_app. apply Hbad. right.
      by apply (proj1 (Forall_singleton _ _)) in Ht.
  - rewrite decide_False; [done|]. by intros [? _]%Forall_app.
Qed.

(** [getTagsWithBlogs] returns exactly when no tag of a published post
    names a property of [Object.prototype]; otherwise [push] is looked up
    on the inherited value and the call throws a [TypeError]. *)
Lemma getTagsWithBlogs_outcome (st : ContentStore) :
  getTagsWithBlogs st
  = if decide (Forall safe_tag (fst <$> tagWalk (getPublishedBlogs st)))
    then JS.normal (JS.Object_entries (tagMap_of (tagWalk (getPublishedBlogs st))))
    else JS.throw JS.TypeError.
Proof.
  unfold getTagsWithBlogs. rewrite forEach_tagWalk, forEach_addTag.
  by destruct (decide _).
Qed.

(** ** Array indices *)

Lemma digit_lt (c : ascii) (d : N) : JS.digit c = Some d → (d < 10)%N.
Proof.
  unfold JS.digit. destruct (decide _) as [Hc|]; [|done].
  intros [= <-]. lia.
Qed.

Lemma digit_inj (c1 c2 : ascii) (d : N) :
  JS.digit c1 = Some d → JS.digit c2 = Some d → c1 = c2.
Proof.
  unfold JS.digit.
  destruct (decide (48 ≤ N_of_ascii c1 ≤ 57)%N) as [H1|]; [|done].
  destruct (decide (48 ≤ N_of_ascii c2 ≤ 57)%N) as [H2|]; [|done].
  intros [= <-] [= Heq].
  rewrite <-(ascii_N_embedding c1), <-(ascii_N_embedding c2).
  f_equal. lia.
Qed.

Lemma digits_value (s : string) (acc n : N) :
  JS.digits acc s = Some n →
  ∃ v, (n = acc * 10 ^ N.of_nat (String.length s) + v
        ∧ v < 10 ^ N.of_nat (String.length s))%N.
Proof.
  revert acc. induction s as [|c s IH]; intros acc; simpl.
  - intros [= <-]. exists 0%N. simpl. lia.
  - destruct (JS.digit c) as [d|] eqn:Hd; [|done]. simpl.
    intros (v & -> & Hv)%IH. apply digit_lt in Hd.
    rewrite Nat2N.inj_succ, N.pow_succ_r'.
    set (p := (10 ^ N.of_nat (String.length s))%N) in *.
    exists (d * p + v)%N. nia.
Qed.

Lemma digits_inj (s1 s2 : string) (acc n : N) :
  String.length s1 = String.length s2 →
  JS.digits acc s1 = Some n → JS.digits acc s2 = Some n → s1 = s2.
Proof.
  revert s2 acc. induction s1 as [|c1 s1 IH]; intros [|c2 s2] acc; try done.
  simpl. intros [= Hlen].
  destruct (JS.digit c1) as [d1|] eqn:Hd1; [|done].
  destruct (JS.digit c2) as [d2|] eqn:Hd2; [|done]. simpl.
  intros H1 H2.
  destruct (digits_value _ _ _ H1) as (v1 & Hn1 & Hv1).
  destruct (digits_value _ _ _ H2) as (v2 & Hn2 & Hv2).
  rewrite <-Hlen in Hn2, Hv2.
  set (p := (10 ^ N.of_nat (String.length s1))%N) in *.
  assert (d1 = d2) as -> by nia.
  f_equal; [by eapply digit_inj | by eapply IH].
Qed.

Lemma array_index_inj (key1 key2 : string) (n : N) :
  JS.array_index key1 = Some n → JS.array_index key2 = Some n → key1 = key2.
Proof.
  destruct key1 as [|c1 r1], key2 as [|c2 r2]; try done.
  unfold JS.array_index.
  destruct (JS.digit c1) as [d1|] eqn:Hd1; [|done].
  destruct (JS.digit c2) as [d2|] eqn:Hd2; [|done]. simpl.
  destruct (decide (d1 = 0%N)) as [->|Hz1], (decide (d2 = 0%N)) as [->|Hz2].
  - destruct r1, r2; try done. intros _ _. f_equal. by eapply digit_inj.
  - destruct r1; [|done]. intros [= <-]. rewrite Hd2. simpl.
    destruct (JS.digits _ r2) as [m|] eqn:Hm; [|done]. simpl.
    destruct (decide _); [|done]. intros [= ->].
    apply digits_value in Hm as (v & Hm & _).
    assert (0 < 10 ^ N.of_nat (String.length r2))%N
      by (apply N.neq_0_lt_0, N.pow_nonzero; lia).
    nia.
  - destruct r2; [|done]. rewrite Hd1. simpl.
    destruct (JS.digits _ r1) as [m|] eqn:Hm; [|done]. simpl.
    destruct (decide _); [|done]. intros [= ->] [= <-].
    apply digits_value in Hm as (v & Hm & _).
    assert (0 < 10 ^ N.of_nat (String.length r1))%N
      by (apply N.neq_0_lt_0, N.pow_nonzero; lia).
    nia.
  - rewrite Hd1, Hd2. simpl.
    destruct (JS.digits _ r1) as [m1|] eqn:Hm1; [|done].
    destruct (JS.digits _ r2) as [m2|] eqn:Hm2; [|done]. simpl.
    destruct (decide (m1 < _)%N); [|done].
    destruct (decide (m2 < _)%N); [|done]. intros [= ->] [= ->].
    pose proof (digits_value _ _ _ Hm1) as (v1 & Hn1 & Hv1).
    pose proof (digits_value _ _ _ Hm2) as (v2 & Hn2 & Hv2).
    apply digit_lt in Hd1 as Hlt1. apply digit_lt in Hd2 as Hlt2.
    assert (String.length r1 = String.length r2) as Hlen.
    { destruct (decide (String.length r1 = String.length r2)); [done|].
      exfalso.
      destruct (decide (String.length r1 < String.length r2)%nat).
      - assert (10 ^ N.of_nat (S (String.length r1))
                ≤ 10 ^ N.of_nat (String.length r2))%N as Hpow
          by (apply N.pow_le_mono_r; lia).
        rewrite Nat2N.inj_succ, N.pow_succ_r' in Hpow. nia.
      - assert (10 ^ N.of_nat (S (String.length r2))
                ≤ 10 ^ N.of_nat (String.length r1))%N as Hpow
          by (apply N.pow_le_mono_r; lia).
        rewrite Nat2N.inj_succ, N.pow_succ_r' in Hpow. nia. }
    rewrite <-Hlen in Hn2, Hv2.
    set (p := (10 ^ N.of_nat (String.length r1))%N) in *.
    assert (d1 = d2) as -> by nia.
    f_equal; [by eapply digit_inj | by eapply digits_inj].
Qed.

(** ** The order of [Object.entries] *)

Section Object_entries_facts.
Context {V : Type}.

Global Instance index_le_total {W} : Total (@JS.index_le W).
Proof. intros a b. unfold JS.index_le. lia. Qed.

Global Instance index_le_trans {W} : Transitive (@JS.index_le W).
Proof. intros a b c. unfold JS.index_le. lia. Qed.

Lemma snd_indexed_properties (o : JS.object V) :
  snd <$> JS.indexed_properties o
  = filter (λ kv, is_Some (JS.array_index kv.1)) o.
Proof.
  unfold JS.indexed_properties. induction o as [|kv o IH]; [done|].
  rewrite filter_cons. csimpl.
  destruct (JS.array_index kv.1) as [n|]; csimpl; by rewrite IH.
Qed.

Lemma elem_of_indexed_properties (o : JS.object V) x :
  x ∈ JS.indexed_properties o → x.2 ∈ o ∧ JS.array_index x.2.1 = Some x.1.
Proof.
  unfold JS.indexed_properties. intros (kv & Hin & Hkv)%list_elem_of_omap.
  destruct (JS.array_index kv.1) as [n|] eqn:Hn; simplify_eq/=. done.
Qed.

Lemma NoDup_indexed_properties (o : JS.object V) :
  NoDup (fst <$> o) → NoDup (fst <$> JS.indexed_properties o).
Proof.
  induction o as [|kv o IH]; [constructor|].
  rewrite fmap_cons. intros [Hkv Hnd]%NoDup_cons.
  unfold JS.indexed_properties. csimpl.
  destruct (JS.array_index kv.1) as [n|] eqn:Hn; csimpl; [|by apply IH].
  constructor; [|by apply IH].
  intros ([m kv'] & -> & Hin)%list_elem_of_fmap.
  apply elem_of_indexed_properties in Hin as [Hin Hm]. simpl in *.
  apply Hkv, list_elem_of_fmap. exists kv'. split; [|done].
  by apply (array_index_inj _ _ m).
Qed.

Lemma StronglySorted_strict (ns : list N) :
  NoDup ns → StronglySorted N.le ns → StronglySorted N.lt ns.
Proof.
  intros Hnd Hs. induction Hs as [|n ns Hs IH Hn]; [constructor|].
  apply NoDup_cons in Hnd as [Hnot Hnd]. constructor; [by apply IH|].
  apply Forall_forall. intros m Hm.
  pose proof (proj1 (Forall_forall _ _) Hn m Hm).
  assert (m ≠ n) by (by intros ->). lia.
Qed.

Lemma Object_entries_Permutation (o : JS.object V) : JS.Object_entries o ≡ₚ o.
Proof.
  unfold JS.Object_entries.
  rewrite merge_sort_Permutation, snd_indexed_properties.
  rewrite (list_filter_iff (λ kv : string * V, JS.array_index kv.1 = None)
             (λ kv, ¬ is_Some (JS.array_index kv.1))).
  - apply filter_app_complement.
  - intros kv. apply eq_None_not_Some.
Qed.

Lemma Object_entries_keys (o : JS.object V) :
  NoDup (fst <$> o) →
  ∃ indices ns,
    fst <$> JS.Object_entries o
    = indices ++ filter (λ key, JS.array_index key = None) (fst <$> o)
    ∧ JS.array_index <$> indices = Some <$> ns
    ∧ StronglySorted N.lt ns
    ∧ indices ≡ₚ filter (λ key, is_Some (JS.array_index key)) (fst <$> o).
Proof.
  intros Hnd.
  set (sorted := merge_sort JS.index_le (JS.indexed_properties o)).
  exists (fst <$> (snd <$> sorted)), (fst <$> sorted). split_and!.
  - unfold JS.Object_entries. fold sorted. rewrite fmap_app. f_equal.
    by apply filter_fmap_member.
  - rewrite <-!list_fmap_compose. apply Forall_fmap_ext, Forall_forall.
    intros x Hx. simpl. apply (elem_of_indexed_properties o).
    subst sorted. by rewrite merge_sort_Permutation in Hx.
  - apply StronglySorted_strict.
    + subst sorted. rewrite merge_sort_Permutation.
      by apply NoDup_indexed_properties.
    + apply StronglySorted_fmap with (R1 := JS.index_le); [done|].
      apply (StronglySorted_merge_sort _).
  - subst sorted. rewrite merge_sort_Permutation, snd_indexed_properties.
    by rewrite (filter_fmap_member fst _
                  (λ key, is_Some (JS.array_index key))).
Qed.

End Object_entries_facts.

(** ** Buckets *)

Lemma elem_of_bucket (tag : string) walk (blog : BlogEntry) :
  blog ∈ bucket tag walk ↔ (tag, blog) ∈ walk.
Proof.
  unfold bucket. rewrite list_elem_of_fmap. split.
  - intros ([t b] & -> & [Ht Hin]%list_elem_of_filter). simpl in *. by subst.
  - intros Hin. exists (tag, blog). split; [done|].
    by apply list_elem_of_filter.
Qed.

Lemma elem_of_tagMap_of (walk : list (string * BlogEntry)) tag blogs :
  (tag, blogs) ∈ tagMap_of walk ↔ tag ∈ fst <$> walk ∧ blogs = bucket tag walk.
Proof.
  unfold tagMap_of. rewrite list_elem_of_fmap. split.
  - intros (t & [= -> ->] & Hin).
    split; [by apply elem_of_first_appearance | done].
  - intros [Hin ->]. exists tag. by rewrite elem_of_first_appearance.
Qed.

Lemma bucket_app (tag : string) (w1 w2 : list (string * BlogEntry)) :
  bucket tag (w1 ++ w2) = bucket tag w1 ++ bucket tag w2.
Proof. unfold bucket. by rewrite filter_app, fmap_app. Qed.

Lemma bucket_one_blog (tag : string) (blog : BlogEntry) (ts : list string) :
  bucket tag ((λ t, (t, blog)) <$> ts) = replicate (count tag ts) blog.
Proof.
  unfold bucket, count. induction ts as [|t ts IH]; [done|].
  rewrite fmap_cons, !filter_cons. cbn [fst].
  destruct (decide (t = tag)); [rewrite fmap_cons|];
    cbn [length replicate snd]; by rewrite IH.
Qed.

Lemma bucket_tagWalk (tag : string) (blogs : list BlogEntry) :
  bucket tag (tagWalk blogs)
  = blogs ≫= (λ blog, replicate (count tag (tagsOf blog)) blog).
Proof.
  induction blogs as [|blog blogs IH]; [done|].
  unfold tagWalk. rewrite !bind_cons, bucket_app, bucket_one_blog.
  f_equal. apply IH.
Qed.

Lemma StronglySorted_replicate {A} (R : relation A) `{!Reflexive R}
    (n : A → nat) (l : list A) :
  StronglySorted R l →
  StronglySorted R (l ≫= (λ x, replicate (n x) x)).
Proof.
  induction 1 as [|x l Hs IH Hx]; [constructor|].
  rewrite bind_cons. apply StronglySorted_app_2; [| |done].
  - intros x1 x2 ->%elem_of_replicate_inv
      (y & ->%elem_of_replicate_inv & Hy)%list_elem_of_bind.
    by apply (proj1 (Forall_forall _ _) Hx).
  - induction (n x) as [|k IHk]; simpl; constructor; [done|].
    apply Forall_forall. by intros y ->%elem_of_replicate_inv.
Qed.

Global Instance newest_first_refl : Reflexive newest_first.
Proof. intros a. unfold newest_first. lia. Qed.

(** ** What [getTagsWithBlogs] returns *)

Lemma getTagsWithBlogs_normal (st : ContentStore) out :
  getTagsWithBlogs st = JS.normal out →
  Forall safe_tag (fst <$> tagWalk (getPublishedBlogs st))
  ∧ out = JS.Object_entries (tagMap_of (tagWalk (getPublishedBlogs st))).
Proof.
  rewrite getTagsWithBlogs_outcome.
  destruct (decide (Forall safe_tag _)); [|done]. by intros [= <-].
Qed.

Lemma getTagsWithBlogs_returns (st : ContentStore) :
  Forall safe_tag (fst <$> tagWalk (getPublishedBlogs st)) →
  ∃ out, getTagsWithBlogs st = JS.normal out.
Proof.
  intros Hsafe. rewrite getTagsWithBlogs_outcome, decide_True by done.
  by eexists.
Qed.

Lemma elem_of_getTagsWithBlogs (st : ContentStore) out tag blogs :
  getTagsWithBlogs st = JS.normal out →
  (tag, blogs) ∈ out ↔
  tag ∈ fst <$> tagWalk (getPublishedBlogs st)
  ∧ blogs = getPublishedBlogs st
            ≫= (λ blog, replicate (count tag (tagsOf blog)) blog).
Proof.
  intros [_ ->]%getTagsWithBlogs_normal.
  by rewrite Object_entries_Permutation, elem_of_tagMap_of, bucket_tagWalk.
Qed.

Lemma getTagsWithBlogs_keys (st : ContentStore) out :
  getTagsWithBlogs st = JS.normal out →
  ∃ indices ns,
    fst <$> out
    = indices ++ filter (λ tag, JS.array_index tag = None)
                   (first_appearance (fst <$> tagWalk (getPublishedBlogs st)))
    ∧ JS.array_index <$> indices = Some <$> ns
    ∧ StronglySorted N.lt ns
    ∧ indices ≡ₚ filter (λ tag, is_Some (JS.array_index tag))
                   (first_appearance (fst <$> tagWalk (getPublishedBlogs st))).
Proof.
  intros [_ ->]%getTagsWithBlogs_normal.
  assert (fst <$> tagMap_of (tagWalk (getPublishedBlogs st))
          = first_appearance (fst <$> tagWalk (getPublishedBlogs st))) as Hfst.
  { unfold tagMap_of. rewrite <-list_fmap_compose. apply list_fmap_id. }
  destruct (Object_entries_keys (tagMap_of (tagWalk (getPublishedBlogs st))))
    as (indices & ns & Hkeys & Hidx & Hsorted & Hperm).
  { rewrite Hfst. apply NoDup_first_appearance. }
  rewrite Hfst in Hkeys, Hperm. by exists indices, ns.
Qed.

(** X8. When no tag is an array index the pairs come in order of first
    appearance. *)
Lemma getTagsWithBlogs_first_appearance (st : ContentStore) out :
  getTagsWithBlogs st = JS.normal out →
  Forall (λ tag, JS.array_index tag = None)
    (fst <$> tagWalk (getPublishedBlogs st)) →
  fst <$> out = first_appearance (fst <$> tagWalk (getPublishedBlogs st)).
Proof.
  intros (indices & ns & -> & _ & _ & Hperm)%getTagsWithBlogs_keys Hnone.
  assert (Forall (λ tag, JS.array_index tag = None)
            (first_appearance (fst <$> tagWalk (getPublishedBlogs st))))
    as Hseen.
  { apply Forall_forall. intros tag Hin.
    apply (proj1 (elem_of_first_appearance _ _)) in Hin.
    by apply (proj1 (Forall_forall _ _) Hnone). }
  rewrite filter_Forall_nil in Hperm.
  - apply Permutation_nil_r in Hperm as ->. simpl.
    by apply filter_Forall_id.
  - eapply Forall_impl; [done|]. intros tag ->. by intros [??].
Qed.

(** C4, as the code has it. Whenever [getTagsWithBlogs] returns, its pairs
    list first the tags that are array indices, by ascending index, and
    then the other tags in order of first appearance along the newest-first
    published list and each post's tags; the posts of a pair are the
    published posts carrying the tag, in the order of [getPublishedBlogs],
    hence newest first. *)
Theorem getTagsWithBlogs_order (st : ContentStore) out :
  getTagsWithBlogs st = JS.normal out →
  (∃ indices ns,
     fst <$> out
     = indices ++ filter (λ tag, JS.array_index tag = None)
                    (first_appearance (fst <$> tagWalk (getPublishedBlogs st)))
     ∧ JS.array_index <$> indices = Some <$> ns
     ∧ StronglySorted N.lt ns
     ∧ indices ≡ₚ filter (λ tag, is_Some (JS.array_index tag))
                    (first_appearance (fst <$> tagWalk (getPublishedBlogs st))))
  ∧ Forall (λ tb, tb.2 = getPublishedBlogs st
                         ≫= (λ blog, replicate (count tb.1 (tagsOf blog)) blog)
                  ∧ StronglySorted newest_first tb.2) out.
Proof.
  intros Hout. split; [by apply getTagsWithBlogs_keys|].
  apply Forall_forall. intros [tag blogs] Hin.
  apply (elem_of_getTagsWithBlogs st out) in Hin as [_ ->]; [|done].
  split; [done|].
  apply (StronglySorted_replicate _), getPublishedBlogs_sorted.
Qed.

(** C10. Every pair [getTagsWithBlogs] returns has at least one post: its
    tag is carried by a published post, and that post is in the pair. *)
Theorem getTagsWithBlogs_no_empty_bucket (st : ContentStore) out tag blogs :
  getTagsWithBlogs st = JS.normal out →
  (tag, blogs) ∈ out →
  blogs ≠ []
  ∧ ∃ blog, blog ∈ getPublishedBlogs st ∧ tag ∈ tagsOf blog ∧ blog ∈ blogs.
Proof.
  intros [_ ->]%getTagsWithBlogs_normal Hin.
  rewrite Object_entries_Permutation in Hin.
  apply elem_of_tagMap_of in Hin as [Htag ->].
  apply list_elem_of_fmap in Htag as ([t blog] & -> & Hin). simpl.
  assert (blog ∈ bucket t (tagWalk (getPublishedBlogs st))) as Hb
    by by apply elem_of_bucket.
  split.
  - intros Hnil. rewrite Hnil in Hb. by apply elem_of_nil in Hb.
  - exists blog. by apply elem_of_tagWalk in Hin as [??].
Qed.

(** ** Occurrences of a post in a pair *)

Section count_facts.
Context {A : Type} `{EqDecision A}.

Lemma count_app (x : A) (l1 l2 : list A) :
  count x (l1 ++ l2) = (count x l1 + count x l2)%nat.
Proof. unfold count. by rewrite filter_app, length_app. Qed.

Lemma count_replicate (x y : A) (n : nat) :
  count x (replicate n y) = if decide (y = x) then n else 0%nat.
Proof.
  unfold count. induction n as [|n IH]; simpl.
  - by destruct (decide (y = x)).
  - rewrite filter_cons. destruct (decide (y = x)); simpl; by rewrite IH.
Qed.

Lemma count_replicate_absent (x : A) (n : A → nat) (l : list A) :
  x ∉ l → count x (l ≫= (λ y, replicate (n y) y)) = 0%nat.
Proof.
  induction l as [|y l IH]; intros Hnot; [done|].
  rewrite bind_cons, count_app, count_replicate, IH.
  - rewrite decide_False; [done|]. intros ->. apply Hnot. by left.
  - intros ?. apply Hnot. by right.
Qed.

Lemma count_replicate_once (x : A) (n : A → nat) (l : list A) :
  NoDup l → x ∈ l → count x (l ≫= (λ y, replicate (n y) y)) = n x.
Proof.
  induction 1 as [|y l Hy Hnd IH]; intros Hin; [by apply elem_of_nil in Hin|].
  rewrite bind_cons, count_app, count_replicate.
  destruct (decide (y = x)) as [->|Hne].
  - rewrite count_replicate_absent by done. lia.
  - rewrite IH; [done|]. by apply elem_of_cons in Hin as [?|?].
Qed.

End count_facts.

Lemma NoDup_getPublishedBlogs (st : ContentStore) :
  NoDup (getCollection_blog st) → NoDup (getPublishedBlogs st).
Proof.
  intros Hnd. rewrite getPublishedBlogs_Permutation. by apply NoDup_filter.
Qed.

(** X7. When [getTagsWithBlogs] returns and the store holds no post twice, a
    published post occurs in the pair of a tag as often as the tag occurs
    in the post's tags, duplicates included; a tag without a pair occurs in
    no published post. *)
Lemma getTagsWithBlogs_occurrences (st : ContentStore) out tag p :
  NoDup (getCollection_blog st) →
  getTagsWithBlogs st = JS.normal out →
  p ∈ getPublishedBlogs st →
  (∀ blogs, (tag, blogs) ∈ out → count p blogs = count tag (tagsOf p))
  ∧ (tag ∉ fst <$> out → count tag (tagsOf p) = 0%nat).
Proof.
  intros Hnd Hout Hp. split.
  - intros blogs Hin.
    apply (elem_of_getTagsWithBlogs st out) in Hin as [_ ->]; [|done].
    apply (count_replicate_once p (λ blog, count tag (tagsOf blog)));
      [by apply NoDup_getPublishedBlogs | done].
  - intros Hnot. unfold count.
    destruct (filter (λ y, y = tag) (tagsOf p)) as [|t ts] eqn:Hf; [done|].
    assert (t ∈ filter (λ y, y = tag) (tagsOf p)) as Ht
      by (rewrite Hf; by left).
    apply list_elem_of_filter in Ht as [-> Ht]. destruct Hnot.
    apply list_elem_of_fmap.
    exists (tag, getPublishedBlogs st
                 ≫= (λ blog, replicate (count tag (tagsOf blog)) blog)).
    split; [done|]. apply (elem_of_getTagsWithBlogs st out); [done|].
    split; [|done]. apply list_elem_of_fmap. exists (tag, p).
    split; [done|]. by apply elem_of_tagWalk.
Qed.

(** C9, where the code departs from it. The only post of
    [constructor_store] is published and lists the tag [constructor] once,
    so the claim puts it once in the pair of that tag; [getTagsWithBlogs]
    throws a [TypeError] instead and returns no pair at all. *)
Theorem getTagsWithBlogs_constructor_throws :
  getPublishedBlogs constructor_store = [postK]
  ∧ count "constructor" (tagsOf postK) = 1%nat
  ∧ getTagsWithBlogs constructor_store = JS.throw JS.TypeError.
Proof. vm_compute. by split_and!. Qed.

(** * The blog schema *)

Section schema_facts.
Import Schema.
Context (h : Host).

(** A record passes exactly when each of its fields parses. *)
Lemma blog_schema_success (fields : list (string * value)) (d : BlogData) :
  blog_schema h (VObj fields) = success d ↔
  z_string (prop fields "title") = Some (title d)
  ∧ z_string (prop fields "description") = Some (description d)
  ∧ z_coerce_date h (prop fields "pubDate") = Some (pubDate d)
  ∧ optional (z_coerce_date h) (prop fields "updatedDate")
    = Some (updatedDate d)
  ∧ default_ z_boolean false (prop fields "isDraft") = Some (isDraft d)
  ∧ optional (z_image h) (prop fields "heroImage") = Some (heroImage d)
  ∧ reference h "category" (prop fields "category") = Some (category d)
  ∧ optional (z_array z_string) (prop fields "tags") = Some (tags d).
Proof.
  unfold blog_schema.
  destruct (z_string (prop fields "title")) as [x1|];
    [|split; [done | by intros (? & _)]].
  destruct (z_string (prop fields "description")) as [x2|];
    [|split; [done | by intros (_ & ? & _)]].
  destruct (z_coerce_date h (prop fields "pubDate")) as [x3|];
    [|split; [done | by intros (_ & _ & ? & _)]].
  destruct (optional (z_coerce_date h) (prop fields "updatedDate")) as [x4|];
    [|split; [done | by intros (_ & _ & _ & ? & _)]].
  destruct (default_ z_boolean false (prop fields "isDraft")) as [x5|];
    [|split; [done | by intros (_ & _ & _ & _ & ? & _)]].
  destruct (optional (z_image h) (prop fields "heroImage")) as [x6|];
    [|split; [done | by intros (_ & _ & _ & _ & _ & ? & _)]].
  destruct (reference h "category" (prop fields "category")) as [x7|];
    [|split; [done | by intros (_ & _ & _ & _ & _ & _ & ? & _)]].
  destruct (optional (z_array z_string) (prop fields "tags")) as [x8|];
    [|split; [done | by intros (_ & _ & _ & _ & _ & _ & _ & ?)]].
  simpl. split.
  - intros [= <-]. simpl. by split_and!.
  - intros (? & ? & ? & ? & ? & ? & ? & ?). destruct d; simplify_eq/=. done.
Qed.

Lemma blog_schema_title_issue (fields : list (string * value)) :
  z_string (prop fields "title") = None →
  ∃ issues, blog_schema h (VObj fields) = failure ([ "title" ] :: issues).
Proof.
  intros Hnone. unfold blog_schema. rewrite Hnone. simpl. by eexists.
Qed.

End schema_facts.

(** C7, as the code has it. The schema asks of [title] that it is a
    string and nothing of its content: a record whose title is absent or
    not a string fails with an issue at [title], and a record that passes
    still passes, with the new title, when its title is replaced by any
    string, the empty one included. *)
Theorem blog_schema_title_any_string (h : Schema.Host)
    (fields fields' : list (string * Schema.value)) (d : BlogData)
    (t : string) :
  Schema.blog_schema h (Schema.VObj fields) = Schema.success d →
  Schema.prop fields' "title" = Schema.VStr t →
  (∀ key, key ≠ "title" → Schema.prop fields' key = Schema.prop fields key) →
  Schema.blog_schema h (Schema.VObj fields') = Schema.success (with_title d t)
  ∧ ∀ other, (∀ s, Schema.prop other "title" ≠ Schema.VStr s) →
             ∃ issues, Schema.blog_schema h (Schema.VObj other)
                       = Schema.failure ([ "title" ] :: issues).
Proof.
  intros Hd Ht Hsame. split.
  - apply blog_schema_success in Hd
      as (_ & H2 & H3 & H4 & H5 & H6 & H7 & H8).
    apply blog_schema_success. rewrite Ht. simpl.
    rewrite !Hsame by done. by split_and!.
  - intros other Hnot. apply blog_schema_title_issue.
    destruct (Schema.prop other "title") as [| | | |s| | |] eqn:Hp; try done.
    by destruct (Hnot s).
Qed.

(** * The sample content, evaluated *)

Example sample_published :
  getPublishedBlogs sample_store = [postA; postB; postE; postC].
Proof. vm_compute. reflexivity. Qed.

Example sample_categories :
  (λ cb : CategoryEntry * list BlogEntry, (id cb.1, id <$> cb.2))
    <$> getCategoriesWithBlogs sample_store
  = [("tech", ["A"; "B"]); ("scratch", ["E"]); ("design", ["C"])].
Proof. vm_compute. reflexivity. Qed.

Example sample_tags :
  getTagsWithBlogs sample_store
  = JS.normal [("js", [postA; postB]); ("css", [postB; postE; postE])].
Proof. vm_compute. reflexivity. Qed.

Example sample_array_index :
  JS.array_index <$> ["0"; "7"; "2024"; "4294967294"; "4294967295"; "01";
                      "-1"; "1.5"; "js"]
  = [Some 0%N; Some 7%N; Some 2024%N; Some 4294967294%N; None; None; None;
     None; None].
Proof. vm_compute. reflexivity. Qed.

(** C2 at the sample store: [A] is followed by [B]. *)
Lemma getPublishedBlogs_adjacent_witness :
  getPublishedBlogs sample_store !! 0%nat = Some postA
  ∧ getPublishedBlogs sample_store !! 1%nat = Some postB
  ∧ pubDate (data postA) >= pubDate (data postB).
Proof.
  split_and!; [vm_compute; reflexivity..|].
  apply (getPublishedBlogs_adjacent sample_store 0 postA postB);
    vm_compute; reflexivity.
Defined.

(** C3 at the sample store: [B] and [E] share a date, and [B] comes first
    in the store. *)
Lemma getPublishedBlogs_stable_witness :
  precedes postB postE (getCollection_blog sample_store)
  ∧ precedes postB postE (getPublishedBlogs sample_store).
Proof.
  assert (precedes postB postE (getCollection_blog sample_store)) as Hstore.
  { exists [postC; postD], [], [postA]. reflexivity. }
  split; [exact Hstore|].
  apply (proj2 (getPublishedBlogs_stable sample_store postB postE
                  eq_refl eq_refl eq_refl)).
  exact Hstore.
Defined.

(** C6 at a store with a post of an unknown category: one post is counted
    out of two. *)
Lemma getCategoriesWithBlogs_counts_witness :
  NoDup (id <$> getCollection_category stray_store)
  ∧ (sum_list ((λ cb, length cb.2) <$> getCategoriesWithBlogs stray_store)
     ≤ length (getPublishedBlogs stray_store))%nat
  ∧ (sum_list ((λ cb, length cb.2) <$> getCategoriesWithBlogs stray_store)
     = length (getPublishedBlogs stray_store)
     ↔ Forall (λ blog, ref_id (category (data blog))
                       ∈ id <$> getCollection_category stray_store)
         (getPublishedBlogs stray_store)).
Proof.
  assert (NoDup (id <$> getCollection_category stray_store)) as Hnd.
  { apply (bool_decide_unpack _). vm_compute. exact I. }
  split; [exact Hnd|].
  apply (getCategoriesWithBlogs_counts stray_store Hnd).
Defined.

(** C4 as stated fails at [year_store]: the walk meets [js] before [2024],
    the pairs come with [2024] before [js]. *)
Lemma getTagsWithBlogs_order_counterexample :
  getTagsWithBlogs year_store
  = JS.normal [("2024", [postY]); ("js", [postY])]
  ∧ first_appearance (fst <$> tagWalk (getPublishedBlogs year_store))
    = ["js"; "2024"].
Proof. vm_compute. by split. Qed.

(** C4 as amended, at [year_store]. *)
Lemma getTagsWithBlogs_order_witness :
  (∃ indices ns,
     fst <$> [("2024", [postY]); ("js", [postY])]
     = indices ++ filter (λ tag, JS.array_index tag = None)
                    (first_appearance
                       (fst <$> tagWalk (getPublishedBlogs year_store)))
     ∧ JS.array_index <$> indices = Some <$> ns
     ∧ StronglySorted N.lt ns
     ∧ indices ≡ₚ filter (λ tag, is_Some (JS.array_index tag))
                    (first_appearance
                       (fst <$> tagWalk (getPublishedBlogs year_store))))
  ∧ Forall (λ tb : string * list BlogEntry,
              tb.2 = getPublishedBlogs year_store
                     ≫= (λ blog, replicate (count tb.1 (tagsOf blog)) blog)
              ∧ StronglySorted newest_first tb.2)
      [("2024", [postY]); ("js", [postY])].
Proof.
  apply (getTagsWithBlogs_order year_store). vm_compute. reflexivity.
Defined.

(** C10 at the sample store, for the pair of [css]. *)
Lemma getTagsWithBlogs_no_empty_bucket_witness :
  [postB; postE; postE] ≠ []
  ∧ ∃ blog, blog ∈ getPublishedBlogs sample_store
            ∧ "css" ∈ tagsOf blog ∧ blog ∈ [postB; postE; postE].
Proof.
  apply (getTagsWithBlogs_no_empty_bucket sample_store
           [("js", [postA; postB]); ("css", [postB; postE; postE])]).
  - vm_compute. reflexivity.
  - right. left.
Defined.

(** C7 as stated fails: a record with the empty title passes. *)
Lemma blog_schema_empty_title_counterexample :
  Schema.blog_schema sample_host (frontmatter (Schema.VStr EmptyString))
  = Schema.success (frontmatter_data EmptyString).
Proof. vm_compute. reflexivity. Qed.

(** C7 as amended, at the sample frontmatter: its title replaced by the
    empty string. *)
Lemma blog_schema_title_any_string_witness :
  Schema.blog_schema sample_host (frontmatter (Schema.VStr EmptyString))
  = Schema.success (with_title (frontmatter_data "Hello") EmptyString)
  ∧ ∀ other, (∀ s, Schema.prop other "title" ≠ Schema.VStr s) →
             ∃ issues, Schema.blog_schema sample_host (Schema.VObj other)
                       = Schema.failure ([ "title" ] :: issues).
Proof.
  apply (blog_schema_title_any_string sample_host
           (frontmatter_fields (Schema.VStr "Hello"))
           (frontmatter_fields (Schema.VStr EmptyString))
           (frontmatter_data "Hello") EmptyString).
  - vm_compute. reflexivity.
  - reflexivity.
  - intros key Hkey. simpl.
    destruct (decide ("title" = key)); [congruence | reflexivity].
Defined.

(** C8 as stated fails: a record without [tags] passes, and its validated
    entity has no [tags] rather than the empty sequence. *)
Lemma blog_schema_absent_tags_counterexample :
  Schema.prop (frontmatter_fields (Schema.VStr "Hello")) "tags"
  = Schema.VUndefined
  ∧ Schema.blog_schema sample_host (frontmatter (Schema.VStr "Hello"))
    = Schema.success (frontmatter_data "Hello")
  ∧ tags (frontmatter_data "Hello") ≠ Some [].
Proof. vm_compute. by split_and!. Qed.

(** * Further properties of the aggregation layer *)

Lemma getPublishedBlogs_with_blogs (st : ContentStore) blogs :
  filter (λ blog, isDraft (data blog) = false) blogs
  = filter (λ blog, isDraft (data blog) = false) (getCollection_blog st) →
  getPublishedBlogs (with_blogs st blogs) = getPublishedBlogs st.
Proof.
  intros Hsame. unfold getPublishedBlogs, with_blogs. simpl.
  by rewrite !(list_filter_iff _ _ _ not_draft_iff), Hsame.
Qed.

(** X1. Drafts take no part in any view: two stores with the same categories
    and the same posts apart from drafts give the same published list, the
    same category pairs and the same outcome of [getTagsWithBlogs]. *)
Theorem views_ignore_drafts (st : ContentStore) (blogs : list BlogEntry) :
  filter (λ blog, isDraft (data blog) = false) blogs
  = filter (λ blog, isDraft (data blog) = false) (getCollection_blog st) →
  getPublishedBlogs (with_blogs st blogs) = getPublishedBlogs st
  ∧ getCategoriesWithBlogs (with_blogs st blogs) = getCategoriesWithBlogs st
  ∧ getTagsWithBlogs (with_blogs st blogs) = getTagsWithBlogs st.
Proof.
  intros Hsame%getPublishedBlogs_with_blogs. split_and!; [done| |].
  - unfold getCategoriesWithBlogs. by rewrite Hsame.
  - unfold getTagsWithBlogs. by rewrite Hsame.
Qed.

Lemma views_ignore_drafts_witness :
  getPublishedBlogs (with_blogs sample_store [postC; postB; postE; postA])
  = getPublishedBlogs sample_store
  ∧ getCategoriesWithBlogs
      (with_blogs sample_store [postC; postB; postE; postA])
    = getCategoriesWithBlogs sample_store
  ∧ getTagsWithBlogs (with_blogs sample_store [postC; postB; postE; postA])
    = getTagsWithBlogs sample_store.
Proof.
  apply (views_ignore_drafts sample_store [postC; postB; postE; postA]).
  vm_compute. reflexivity.
Defined.

Lemma getPublishedBlogs_nil (st : ContentStore) :
  getPublishedBlogs st = [] ↔
  Forall (λ blog, isDraft (data blog) = true) (getCollection_blog st).
Proof.
  split.
  - intros Hnil. apply Forall_forall. intros blog Hin.
    destruct (isDraft (data blog)) eqn:Hd; [done|].
    assert (blog ∈ getPublishedBlogs st) as Hp.
    { rewrite getPublishedBlogs_Permutation. by apply list_elem_of_filter. }
    rewrite Hnil in Hp. by apply elem_of_nil in Hp.
  - intros Hall. apply Permutation_nil_r.
    rewrite getPublishedBlogs_Permutation. rewrite filter_Forall_nil; [done|].
    eapply Forall_impl; [done|]. intros blog ->. done.
Qed.

(** X2. With no published post (an empty store, or drafts only) nothing fails:
    the published list is empty, every category is still listed with no
    post, and [getTagsWithBlogs] returns no pair. *)
Theorem views_without_published_posts (st : ContentStore) :
  Forall (λ blog, isDraft (data blog) = true) (getCollection_blog st) →
  getPublishedBlogs st = []
  ∧ getCategoriesWithBlogs st = (λ c, (c, [])) <$> getCollection_category st
  ∧ getTagsWithBlogs st = JS.normal [].
Proof.
  intros Hnil%getPublishedBlogs_nil. split_and!; [done| |].
  - unfold getCategoriesWithBlogs. by rewrite Hnil.
  - unfold getTagsWithBlogs. by rewrite Hnil.
Qed.

Lemma views_without_published_posts_witness :
  getPublishedBlogs drafts_store = []
  ∧ getCategoriesWithBlogs drafts_store
    = (λ c, (c, [])) <$> getCollection_category drafts_store
  ∧ getTagsWithBlogs drafts_store = JS.normal [].
Proof.
  apply (views_without_published_posts drafts_store).
  apply (bool_decide_unpack _). vm_compute. exact I.
Defined.

Lemma unsafe_walk (st : ContentStore) :
  ¬ Forall safe_tag (fst <$> tagWalk (getPublishedBlogs st)) ↔
  ∃ blog tag, blog ∈ getCollection_blog st ∧ isDraft (data blog) = false
              ∧ tag ∈ tagsOf blog ∧ tag ∈ JS.Object_prototype.
Proof.
  split.
  - intros Hnot. apply (not_Forall_Exists _), Exists_exists in Hnot
      as (tag & Hin & Hunsafe).
    apply list_elem_of_fmap in Hin as ([t blog] & -> & Hin).
    apply elem_of_tagWalk in Hin as [Hblog Htag].
    rewrite getPublishedBlogs_Permutation in Hblog.
    apply list_elem_of_filter in Hblog as [Hd Hblog].
    exists blog, t. split_and!; [done..|].
    unfold safe_tag in Hunsafe. simpl in Hunsafe.
    by destruct (decide (t ∈ JS.Object_prototype)).
  - intros (blog & tag & Hblog & Hd & Htag & Hproto) Hsafe.
    apply (proj1 (Forall_forall _ _) Hsafe tag); [|done].
    apply list_elem_of_fmap. exists (tag, blog). split; [done|].
    apply elem_of_tagWalk. split; [|done].
    rewrite getPublishedBlogs_Permutation. by apply list_elem_of_filter.
Qed.

(** X3. [getTagsWithBlogs] throws, and then a [TypeError], exactly when a
    published post carries a tag that names a property of
    [Object.prototype]; for every other store it returns. *)
Theorem getTagsWithBlogs_throws_iff (st : ContentStore) :
  (getTagsWithBlogs st = JS.throw JS.TypeError ↔
   ∃ blog tag, blog ∈ getCollection_blog st ∧ isDraft (data blog) = false
               ∧ tag ∈ tagsOf blog ∧ tag ∈ JS.Object_prototype)
  ∧ ((∃ out, getTagsWithBlogs st = JS.normal out) ↔
     ¬ ∃ blog tag, blog ∈ getCollection_blog st ∧ isDraft (data blog) = false
                   ∧ tag ∈ tagsOf blog ∧ tag ∈ JS.Object_prototype).
Proof.
  rewrite <-unsafe_walk, getTagsWithBlogs_outcome.
  destruct (decide (Forall safe_tag _)) as [Hsafe|Hunsafe].
  - split; [split; [done | tauto]|]. split; [tauto | by eexists].
  - split; [tauto|]. split; [by intros [? ?] | tauto].
Qed.

Lemma fst_tagMap_of (walk : list (string * BlogEntry)) :
  fst <$> tagMap_of walk = first_appearance (fst <$> walk).
Proof. unfold tagMap_of. rewrite <-list_fmap_compose. apply list_fmap_id. Qed.

(** X4. No tag comes twice: the pairs [getTagsWithBlogs] returns have pairwise
    different tags, compared as exact strings. *)
Theorem getTagsWithBlogs_distinct_tags (st : ContentStore) out :
  getTagsWithBlogs st = JS.normal out → NoDup (fst <$> out).
Proof.
  intros [_ ->]%getTagsWithBlogs_normal.
  rewrite Object_entries_Permutation, fst_tagMap_of.
  apply NoDup_first_appearance.
Qed.

Lemma getTagsWithBlogs_distinct_tags_witness :
  NoDup (fst <$> [("js", [postA; postB]); ("css", [postB; postE; postE])]).
Proof.
  apply (getTagsWithBlogs_distinct_tags sample_store). vm_compute. reflexivity.
Defined.

(** X5. Whenever [getTagsWithBlogs] returns, a post is in the pair of a tag
    exactly when it is published and carries that tag: every tag of every
    published post has its pair, and no pair holds a draft or a post
    without the tag. *)
Theorem getTagsWithBlogs_membership (st : ContentStore) out tag blog :
  getTagsWithBlogs st = JS.normal out →
  (∃ blogs, (tag, blogs) ∈ out ∧ blog ∈ blogs) ↔
  blog ∈ getCollection_blog st ∧ isDraft (data blog) = false
  ∧ tag ∈ tagsOf blog.
Proof.
  intros [_ ->]%getTagsWithBlogs_normal.
  setoid_rewrite Object_entries_Permutation.
  setoid_rewrite elem_of_tagMap_of.
  assert ((tag, blog) ∈ tagWalk (getPublishedBlogs st) ↔
          blog ∈ getCollection_blog st ∧ isDraft (data blog) = false
          ∧ tag ∈ tagsOf blog) as <-.
  { rewrite elem_of_tagWalk, getPublishedBlogs_Permutation.
    rewrite list_elem_of_filter. tauto. }
  split.
  - intros (blogs & [_ ->] & Hin). by apply elem_of_bucket.
  - intros Hin. exists (bucket tag (tagWalk (getPublishedBlogs st))).
    split; [split; [|done] | by apply elem_of_bucket].
    apply list_elem_of_fmap. by exists (tag, blog).
Qed.

Lemma getTagsWithBlogs_membership_witness :
  (∃ blogs, ("css", blogs)
            ∈ [("js", [postA; postB]); ("css", [postB; postE; postE])]
            ∧ postE ∈ blogs) ↔
  postE ∈ getCollection_blog sample_store ∧ isDraft (data postE) = false
  ∧ "css" ∈ tagsOf postE.
Proof.
  apply (getTagsWithBlogs_membership sample_store). vm_compute. reflexivity.
Defined.

Lemma length_tagWalk (blogs : list BlogEntry) :
  length (tagWalk blogs)
  = sum_list ((λ blog, length (tagsOf blog)) <$> blogs).
Proof.
  induction blogs as [|blog blogs IH]; [done|].
  unfold tagWalk. rewrite bind_cons, length_app, length_fmap. csimpl.
  f_equal. apply IH.
Qed.

Lemma sum_length_tagMap_of (walk : list (string * BlogEntry)) :
  sum_list ((λ tb, length tb.2) <$> tagMap_of walk) = length walk.
Proof.
  unfold tagMap_of, bucket. rewrite <-list_fmap_compose.
  rewrite (list_fmap_ext _
             (λ tag, length (filter (λ tb : string * BlogEntry, tb.1 = tag)
                               walk)))
    by (intros; simpl; apply length_fmap).
  rewrite (sum_length_filter_keys fst) by apply NoDup_first_appearance.
  f_equal. apply filter_Forall_id, Forall_forall. intros tb Hin.
  apply elem_of_first_appearance, list_elem_of_fmap. by exists tb.
Qed.

(** X6. The pairs of [getTagsWithBlogs] hold as many posts, all pairs taken
    together, as the published posts carry tags: every tag occurrence
    makes one entry, none is dropped and none is added. *)
Theorem getTagsWithBlogs_total (st : ContentStore) out :
  getTagsWithBlogs st = JS.normal out →
  sum_list ((λ tb, length tb.2) <$> out)
  = sum_list ((λ blog, length (tagsOf blog)) <$> getPublishedBlogs st).
Proof.
  intros [_ ->]%getTagsWithBlogs_normal.
  by rewrite Object_entries_Permutation, sum_length_tagMap_of, length_tagWalk.
Qed.

Lemma getTagsWithBlogs_total_witness :
  sum_list ((λ tb : string * list BlogEntry, length tb.2)
              <$> [("js", [postA; postB]); ("css", [postB; postE; postE])])
  = sum_list ((λ blog, length (tagsOf blog)) <$> getPublishedBlogs sample_store).
Proof.
  apply (getTagsWithBlogs_total sample_store). vm_compute. reflexivity.
Defined.

(** [getTagsWithBlogs_occurrences] at the sample store: [E] lists [css]
    twice and is twice in its pair. *)
Lemma getTagsWithBlogs_occurrences_witness :
  (∀ blogs, ("css", blogs)
            ∈ [("js", [postA; postB]); ("css", [postB; postE; postE])] →
            count postE blogs = count "css" (tagsOf postE))
  ∧ ("css" ∉ fst <$> [("js", [postA; postB]); ("css", [postB; postE; postE])]
     → count "css" (tagsOf postE) = 0%nat).
Proof.
  apply (getTagsWithBlogs_occurrences sample_store).
  - apply (bool_decide_unpack _). vm_compute. exact I.
  - vm_compute. reflexivity.
  - apply (bool_decide_unpack _). vm_compute. exact I.
Defined.

(** ** What determines the published list *)

Section classes.
Context {A : Type} (key : A → Z).

Lemma filter_class_head (x : A) (l l' : list A) :
  filter (λ a, key a = key x) (x :: l) = filter (λ a, key a = key x) l' →
  x ∈ l'.
Proof.
  rewrite filter_cons_True by done. intros Hf.
  assert (x ∈ filter (λ a, key a = key x) l') as Hin by (rewrite <-Hf; left).
  by apply list_elem_of_filter in Hin as [_ ?].
Qed.

Lemma sorted_head_max (x y : A) (l : list A) :
  StronglySorted (λ a b, key b ≤ key a) (x :: l) → y ∈ x :: l →
  key y ≤ key x.
Proof.
  intros [Hx _]%StronglySorted_cons [->|Hin]%elem_of_cons; [lia|].
  by apply (proj1 (Forall_forall _ _) Hx).
Qed.

(** Two lists sorted by descending key that agree on the elements of every
    key, in order, are the same list. *)
Lemma sorted_by_classes (l1 l2 : list A) :
  StronglySorted (λ a b, key b ≤ key a) l1 →
  StronglySorted (λ a b, key b ≤ key a) l2 →
  (∀ d, filter (λ a, key a = d) l1 = filter (λ a, key a = d) l2) →
  l1 = l2.
Proof.
  revert l2. induction l1 as [|x l1 IH]; intros [|y l2] Hs1 Hs2 Hf; [done|..].
  - specialize (Hf (key y)). by rewrite filter_cons_True in Hf.
  - specialize (Hf (key x)). by rewrite filter_cons_True in Hf.
  - assert (key x = key y) as Hxy.
    { pose proof (filter_class_head x l1 (y :: l2) (Hf (key x))) as Hx.
      pose proof (filter_class_head y l2 (x :: l1) (eq_sym (Hf (key y)))) as Hy.
      pose proof (sorted_head_max _ _ _ Hs2 Hx).
      pose proof (sorted_head_max _ _ _ Hs1 Hy). lia. }
    pose proof (Hf (key x)) as Hhead.
    rewrite filter_cons_True, (filter_cons_True _ y) in Hhead by done.
    injection Hhead as -> Hhead. f_equal.
    apply StronglySorted_cons in Hs1 as [_ Hs1].
    apply StronglySorted_cons in Hs2 as [_ Hs2].
    apply IH; [done..|]. intros d.
    destruct (decide (key y = d)) as [<-|Hne]; [done|].
    specialize (Hf d). by rewrite !filter_cons_False in Hf.
Qed.

End classes.

Lemma filter_comm {A} (P Q : A → Prop) `{∀ x, Decision (P x)}
    `{∀ x, Decision (Q x)} (l : list A) :
  filter P (filter Q l) = filter Q (filter P l).
Proof.
  rewrite !list_filter_filter. apply list_filter_iff. tauto.
Qed.

Lemma getPublishedBlogs_determined (st : ContentStore) (l : list BlogEntry) :
  StronglySorted newest_first l →
  (∀ d, filter (λ blog, pubDate (data blog) = d) l
        = filter (λ blog, pubDate (data blog) = d)
            (filter (λ blog, isDraft (data blog) = false)
               (getCollection_blog st))) →
  l = getPublishedBlogs st.
Proof.
  intros Hs Hf.
  apply (sorted_by_classes (λ blog : BlogEntry, pubDate (data blog)));
    [done | apply getPublishedBlogs_sorted |].
  intros d. by rewrite Hf, getPublishedBlogs_same_date.
Qed.

(** X9. The published list is the only one there can be: a list that is
    newest first and holds, for every date, the non-draft posts of that date
    in the order of the store is the list [getPublishedBlogs] returns. *)
Theorem getPublishedBlogs_unique (st : ContentStore) (l : list BlogEntry) :
  StronglySorted newest_first l →
  (∀ d, filter (λ blog, pubDate (data blog) = d) l
        = filter (λ blog, pubDate (data blog) = d)
            (filter (λ blog, isDraft (data blog) = false)
               (getCollection_blog st))) →
  l = getPublishedBlogs st.
Proof. apply getPublishedBlogs_determined. Qed.

Lemma getPublishedBlogs_sorted_store (st : ContentStore) :
  Forall (λ blog, isDraft (data blog) = false) (getCollection_blog st) →
  StronglySorted newest_first (getCollection_blog st) →
  getPublishedBlogs st = getCollection_blog st.
Proof.
  intros Hnone Hs. symmetry. apply getPublishedBlogs_determined; [done|].
  intros d. by rewrite (filter_Forall_id _ _ Hnone).
Qed.

(** X10. A store that holds no draft and lists its posts newest first is
    returned as it is. *)
Theorem getPublishedBlogs_keeps_sorted_store (st : ContentStore) :
  Forall (λ blog, isDraft (data blog) = false) (getCollection_blog st) →
  StronglySorted newest_first (getCollection_blog st) →
  getPublishedBlogs st = getCollection_blog st.
Proof. apply getPublishedBlogs_sorted_store. Qed.

Lemma published_not_draft (st : ContentStore) :
  Forall (λ blog, isDraft (data blog) = false) (getPublishedBlogs st).
Proof.
  apply Forall_forall. intros blog Hin.
  rewrite getPublishedBlogs_Permutation in Hin.
  by apply list_elem_of_filter in Hin as [? _].
Qed.

(** X11. Publishing twice changes nothing: the published list of the published
    list is the published list. *)
Theorem getPublishedBlogs_idempotent (st : ContentStore) :
  getPublishedBlogs (with_blogs st (getPublishedBlogs st))
  = getPublishedBlogs st.
Proof.
  apply (getPublishedBlogs_sorted_store (with_blogs st (getPublishedBlogs st))).
  - apply published_not_draft.
  - apply getPublishedBlogs_sorted.
Qed.

(** ** More on the posts by category *)

(** X12. The posts of a category pair are published posts that refer to the
    category, in the order of the published list, hence newest first. *)
Theorem getCategoriesWithBlogs_order (st : ContentStore) :
  Forall (λ cb, cb.2 `sublist_of` getPublishedBlogs st
                ∧ StronglySorted newest_first cb.2
                ∧ Forall (λ blog, isDraft (data blog) = false
                                  ∧ ref_id (category (data blog)) = id cb.1)
                    cb.2)
    (getCategoriesWithBlogs st).
Proof.
  unfold getCategoriesWithBlogs. apply Forall_fmap, Forall_forall.
  intros c _. simpl. split_and!.
  - apply sublist_filter.
  - apply StronglySorted_filter, getPublishedBlogs_sorted.
  - apply Forall_forall. intros blog [Hc Hin]%list_elem_of_filter.
    split; [|done]. by apply (proj1 (Forall_forall _ _) (published_not_draft st)).
Qed.

(** X13. Grouping and sorting commute: the posts of a category pair are the
    published list of the store restricted to that category. *)
Theorem getCategoriesWithBlogs_restrict (st : ContentStore) :
  Forall (λ cb, cb.2 = getPublishedBlogs (posts_of_category st (id cb.1)))
    (getCategoriesWithBlogs st).
Proof.
  unfold getCategoriesWithBlogs. apply Forall_fmap, Forall_forall.
  intros c _. simpl. apply getPublishedBlogs_determined.
  - apply StronglySorted_filter, getPublishedBlogs_sorted.
  - intros d. unfold posts_of_category, with_blogs. simpl.
    rewrite filter_comm, getPublishedBlogs_same_date.
    rewrite filter_comm. f_equal. apply filter_comm.
Qed.

Section partition.
Context {A K : Type} `{EqDecision K} (key : A → K).

Lemma filter_key_cons (k : K) (ks : list K) (l : list A) :
  k ∉ ks →
  filter (λ x, key x ∈ k :: ks) l
  ≡ₚ filter (λ x, key x = k) l ++ filter (λ x, key x ∈ ks) l.
Proof.
  intros Hk. induction l as [|x l IH]; [done|].
  rewrite !filter_cons.
  destruct (decide (key x = k)) as [Hxk|Hxk],
    (decide (key x ∈ ks)) as [Hin|Hin],
    (decide (key x ∈ k :: ks)) as [Hc|Hc]; simpl;
    try (exfalso; apply Hc; rewrite ?Hxk; by (left || right));
    try (exfalso; apply Hk; by rewrite <-Hxk);
    try (by rewrite IH).
  - rewrite IH. apply Permutation_middle.
  - exfalso. by apply elem_of_cons in Hc as [?|?].
Qed.

Lemma concat_filter_keys (ks : list K) (l : list A) :
  NoDup ks →
  concat ((λ k, filter (λ x, key x = k) l) <$> ks)
  ≡ₚ filter (λ x, key x ∈ ks) l.
Proof.
  induction 1 as [|k ks Hk Hnd IH]; csimpl.
  - rewrite filter_Forall_nil; [done|].
    apply Forall_forall. intros x _. apply not_elem_of_nil.
  - by rewrite IH, filter_key_cons.
Qed.

End partition.

(** X14. When the categories have distinct identifiers the category pairs
    split the published posts that refer to a category of the collection:
    taken together the pairs hold each of these posts as often as the
    published list does, and no post that refers to an unknown category. *)
Theorem getCategoriesWithBlogs_partition (st : ContentStore) :
  NoDup (id <$> getCollection_category st) →
  concat (snd <$> getCategoriesWithBlogs st)
  ≡ₚ filter (λ blog, ref_id (category (data blog))
                     ∈ id <$> getCollection_category st)
       (getPublishedBlogs st).
Proof.
  intros Hnd.
  rewrite <-(concat_filter_keys
               (λ blog : BlogEntry, ref_id (category (data blog)))) by done.
  unfold getCategoriesWithBlogs. by rewrite <-!list_fmap_compose.
Qed.

Lemma getPublishedBlogs_unique_witness :
  [postA; postB; postE; postC] = getPublishedBlogs sample_store.
Proof.
  apply (getPublishedBlogs_unique sample_store).
  - apply (bool_decide_unpack _). vm_compute. exact I.
  - intros d. unfold sample_store. simpl.
    repeat (rewrite filter_cons; simpl).
    repeat case_decide; try done; lia.
Defined.

Lemma getPublishedBlogs_keeps_sorted_store_witness :
  getPublishedBlogs sorted_store = [postA; postB; postE; postC].
Proof.
  apply (getPublishedBlogs_keeps_sorted_store sorted_store).
  - apply (bool_decide_unpack _). vm_compute. exact I.
  - apply (bool_decide_unpack _). vm_compute. exact I.
Defined.

Lemma getCategoriesWithBlogs_partition_witness :
  concat (snd <$> getCategoriesWithBlogs stray_store)
  ≡ₚ filter (λ blog, ref_id (category (data blog))
                     ∈ id <$> getCollection_category stray_store)
       (getPublishedBlogs stray_store).
Proof.
  apply (getCategoriesWithBlogs_partition stray_store).
  apply (bool_decide_unpack _). vm_compute. exact I.
Defined.

(** ** The categories of this site *)

Lemma category_collection_ids :
  id <$> Schema.category_collection = ["tech"; "scratch"; "design"].
Proof. vm_compute. reflexivity. Qed.

(** X15. Whatever the posts, the site's category pairs are those of [tech],
    [scratch] and [design], in this order; their post counts add up to at
    most the number of published posts, and to exactly that number if and
    only if every published post refers to one of the three. *)
Theorem site_categories (blogs : list BlogEntry) :
  (λ cb, id cb.1) <$> getCategoriesWithBlogs (site_store blogs)
  = ["tech"; "scratch"; "design"]
  ∧ (sum_list ((λ cb, length cb.2) <$> getCategoriesWithBlogs (site_store blogs))
     ≤ length (getPublishedBlogs (site_store blogs)))%nat
  ∧ (sum_list ((λ cb, length cb.2) <$> getCategoriesWithBlogs (site_store blogs))
     = length (getPublishedBlogs (site_store blogs))
     ↔ Forall (λ blog, ref_id (category (data blog))
                       ∈ ["tech"; "scratch"; "design"])
         (getPublishedBlogs (site_store blogs))).
Proof.
  assert (NoDup (id <$> Schema.category_collection)) as Hnd.
  { apply (bool_decide_unpack _). vm_compute. exact I. }
  split.
  - unfold getCategoriesWithBlogs. rewrite <-list_fmap_compose.
    apply category_collection_ids.
  - rewrite getCategoriesWithBlogs_total. simpl getCollection_category.
    rewrite (sum_length_filter_keys
               (λ blog : BlogEntry, ref_id (category (data blog)))) by done.
    rewrite category_collection_ids.
    split; [apply length_filter | apply length_filter_eq].
Qed.

(** * Further properties of the blog schema *)

Section schema_issues.
Import Schema.
Context (h : Host).

Lemma elem_of_issue {T} (key key' : string) (r : option T) :
  [key] ∈ issue key' r ↔ key = key' ∧ r = None.
Proof.
  destruct r; simpl.
  - split; [by intros ?%elem_of_nil | by intros [_ ?]].
  - rewrite list_elem_of_singleton. split; [by intros [= ->] | by intros [-> _]].
Qed.

Lemma elem_of_issue_inv {T} (path : list string) (key : string)
    (r : option T) :
  path ∈ issue key r → path = [key].
Proof.
  destruct r; simpl; [by intros ?%elem_of_nil|].
  by intros ->%list_elem_of_singleton.
Qed.

(** A record fails exactly when a field has an issue, and then with the
    issues of all its fields. *)
Lemma blog_schema_failure (fields : list (string * value)) issues :
  blog_schema h (VObj fields) = failure issues ↔
  issues = blog_issues h fields ∧ issues ≠ [].
Proof.
  unfold blog_schema, blog_issues.
  destruct (z_string (prop fields "title")) as [x1|];
    [|split; [by intros [= <-] | by intros [-> _]]].
  destruct (z_string (prop fields "description")) as [x2|];
    [|split; [by intros [= <-] | by intros [-> _]]].
  destruct (z_coerce_date h (prop fields "pubDate")) as [x3|];
    [|split; [by intros [= <-] | by intros [-> _]]].
  destruct (optional (z_coerce_date h) (prop fields "updatedDate")) as [x4|];
    [|split; [by intros [= <-] | by intros [-> _]]].
  destruct (default_ z_boolean false (prop fields "isDraft")) as [x5|];
    [|split; [by intros [= <-] | by intros [-> _]]].
  destruct (optional (z_image h) (prop fields "heroImage")) as [x6|];
    [|split; [by intros [= <-] | by intros [-> _]]].
  destruct (reference h "category" (prop fields "category")) as [x7|];
    [|split; [by intros [= <-] | by intros [-> _]]].
  destruct (optional (z_array z_string) (prop fields "tags")) as [x8|];
    [|split; [by intros [= <-] | by intros [-> _]]].
  simpl. split; [done | by intros [-> ?]].
Qed.

Lemma blog_schema_issue_at (fields : list (string * value)) key :
  [key] ∈ blog_issues h fields →
  ∃ issues, blog_schema h (VObj fields) = failure issues ∧ [key] ∈ issues.
Proof.
  intros Hin. exists (blog_issues h fields). split; [|done].
  apply blog_schema_failure. split; [done|].
  intros Hnil. rewrite Hnil in Hin. by apply elem_of_nil in Hin.
Qed.

Lemma z_array_string_Some (v : value) (ts : list string) :
  z_array z_string v = Some ts ↔ v = VArr (VStr <$> ts).
Proof.
  split.
  - destruct v as [| | | | | |items|]; try done. simpl. intros Hm.
    f_equal. revert ts Hm. induction items as [|x items IH]; intros ts.
    + by intros [= <-].
    + csimpl. destruct x; try done. simpl.
      destruct (mapM z_string items) as [ts'|]; [|done]. simpl.
      intros [= <-]. csimpl. f_equal. by apply IH.
  - intros ->. simpl. by apply mapM_fmap_Some.
Qed.

End schema_issues.

(** X16. A record that fails reports every field that has an issue, not only
    the first, and at least one: the issues of a failure name exactly the
    fields whose value does not parse, each at one of the eight keys of
    the schema and nothing else. *)
Theorem blog_schema_reports_every_issue (h : Schema.Host)
    (fields : list (string * Schema.value)) issues :
  Schema.blog_schema h (Schema.VObj fields) = Schema.failure issues →
  issues ≠ []
  ∧ ([ "title" ] ∈ issues ↔
     Schema.z_string (Schema.prop fields "title") = None)
  ∧ ([ "description" ] ∈ issues ↔
     Schema.z_string (Schema.prop fields "description") = None)
  ∧ ([ "pubDate" ] ∈ issues ↔
     Schema.z_coerce_date h (Schema.prop fields "pubDate") = None)
  ∧ ([ "updatedDate" ] ∈ issues ↔
     Schema.optional (Schema.z_coerce_date h)
       (Schema.prop fields "updatedDate") = None)
  ∧ ([ "isDraft" ] ∈ issues ↔
     Schema.default_ Schema.z_boolean false (Schema.prop fields "isDraft")
     = None)
  ∧ ([ "heroImage" ] ∈ issues ↔
     Schema.optional (Schema.z_image h) (Schema.prop fields "heroImage")
     = None)
  ∧ ([ "category" ] ∈ issues ↔
     Schema.reference h "category" (Schema.prop fields "category") = None)
  ∧ ([ "tags" ] ∈ issues ↔
     Schema.optional (Schema.z_array Schema.z_string)
       (Schema.prop fields "tags") = None)
  ∧ (∀ path, path ∈ issues → ∃ key, key ∈ blog_schema_keys ∧ path = [key]).
Proof.
  intros [-> Hne]%blog_schema_failure. split; [done|].
  unfold blog_issues. rewrite !elem_of_app, !elem_of_issue.
  split_and!; try (intuition congruence).
  intros path. rewrite !elem_of_app.
  intros [Hin|[Hin|[Hin|[Hin|[Hin|[Hin|[Hin|Hin]]]]]]];
    apply elem_of_issue_inv in Hin as ->; eexists; (split; [|done]);
    apply (bool_decide_unpack _); vm_compute; exact I.
Qed.

Lemma blog_schema_reports_every_issue_witness :
  [["title"]; ["pubDate"]] ≠ []
  ∧ ([ "title" ] ∈ [["title"]; ["pubDate"]] ↔
     Schema.z_string
       (Schema.prop [("description", Schema.VStr "About");
                     ("category", Schema.VStr "tech")] "title") = None).
Proof.
  destruct (blog_schema_reports_every_issue sample_host
              [("description", Schema.VStr "About");
               ("category", Schema.VStr "tech")]
              [["title"]; ["pubDate"]]) as (H0 & H1 & _).
  - vm_compute. reflexivity.
  - exact (conj H0 H1).
Defined.

(** X17. The required fields [description] and [pubDate]: whatever the host, a
    record whose description is absent or not a string, or whose pubDate
    is absent or an invalid date, fails with an issue at that field. *)
Theorem blog_schema_required_fields (h : Schema.Host)
    (fields : list (string * Schema.value)) :
  ((∀ s, Schema.prop fields "description" ≠ Schema.VStr s) →
   ∃ issues, Schema.blog_schema h (Schema.VObj fields) = Schema.failure issues
             ∧ [ "description" ] ∈ issues)
  ∧ (Schema.prop fields "pubDate" = Schema.VUndefined
     ∨ Schema.prop fields "pubDate" = Schema.VDate None →
     ∃ issues, Schema.blog_schema h (Schema.VObj fields) = Schema.failure issues
               ∧ [ "pubDate" ] ∈ issues).
Proof.
  split.
  - intros Hnot. apply blog_schema_issue_at. unfold blog_issues.
    rewrite !elem_of_app, !elem_of_issue. right. left. split; [done|].
    destruct (Schema.prop fields "description") as [| | | |s| | |] eqn:Hp;
      try done. by destruct (Hnot s).
  - intros Hdate. apply blog_schema_issue_at. unfold blog_issues.
    rewrite !elem_of_app, !elem_of_issue. right. right. left. split; [done|].
    by destruct Hdate as [-> | ->].
Qed.

Lemma blog_schema_required_fields_witness :
  ∃ issues,
    Schema.blog_schema sample_host
      (Schema.VObj [("title", Schema.VStr "Hello");
                    ("category", Schema.VStr "tech")])
    = Schema.failure issues
    ∧ [ "pubDate" ] ∈ issues.
Proof.
  apply (proj2 (blog_schema_required_fields sample_host
                  [("title", Schema.VStr "Hello");
                   ("category", Schema.VStr "tech")])).
  left. reflexivity.
Defined.

(** X18. No coercion for [isDraft] and [tags]: when [isDraft] is present and
    not a boolean, or [tags] is present and not an array of strings (a
    bare string, an array with a number in it), the record fails with an
    issue at that field. *)
Theorem blog_schema_strict_types (h : Schema.Host)
    (fields : list (string * Schema.value)) :
  (Schema.prop fields "isDraft" ≠ Schema.VUndefined →
   (∀ b, Schema.prop fields "isDraft" ≠ Schema.VBool b) →
   ∃ issues, Schema.blog_schema h (Schema.VObj fields) = Schema.failure issues
             ∧ [ "isDraft" ] ∈ issues)
  ∧ (Schema.prop fields "tags" ≠ Schema.VUndefined →
     (∀ ts, Schema.prop fields "tags" ≠ Schema.VArr (Schema.VStr <$> ts)) →
     ∃ issues, Schema.blog_schema h (Schema.VObj fields) = Schema.failure issues
               ∧ [ "tags" ] ∈ issues).
Proof.
  split.
  - intros Hdef Hnot. apply blog_schema_issue_at. unfold blog_issues.
    rewrite !elem_of_app, !elem_of_issue. do 4 right. left. split; [done|].
    destruct (Schema.prop fields "isDraft") as [| |b| | | | |] eqn:Hp;
      try done. by destruct (Hnot b).
  - intros Hdef Hnot. apply blog_schema_issue_at. unfold blog_issues.
    rewrite !elem_of_app, !elem_of_issue. do 7 right. split; [done|].
    unfold Schema.optional.
    destruct (Schema.z_array Schema.z_string (Schema.prop fields "tags"))
      as [ts|] eqn:Hts.
    + apply z_array_string_Some in Hts. by destruct (Hnot ts).
    + by destruct (Schema.prop fields "tags").
Qed.

Lemma blog_schema_strict_types_witness :
  ∃ issues,
    Schema.blog_schema sample_host
      (Schema.VObj (("tags", Schema.VArr [Schema.VStr "js"; Schema.VNum 2024])
                    :: frontmatter_fields (Schema.VStr "Hello")))
    = Schema.failure issues
    ∧ [ "tags" ] ∈ issues.
Proof.
  apply (proj2 (blog_schema_strict_types sample_host
                  (("tags", Schema.VArr [Schema.VStr "js"; Schema.VNum 2024])
                   :: frontmatter_fields (Schema.VStr "Hello")))).
  - simpl. discriminate.
  - intros ts. simpl. destruct ts as [|t [|t' ts]]; discriminate.
Defined.

(** X19. What is present passes through unchanged: in a record that passes,
    the title and the description are the strings given, [isDraft] is the
    boolean given, and [tags] holds exactly the strings given, in their
    order and with their repetitions. *)
Theorem blog_schema_keeps_values (h : Schema.Host)
    (fields : list (string * Schema.value)) (d : BlogData) :
  Schema.blog_schema h (Schema.VObj fields) = Schema.success d →
  Schema.prop fields "title" = Schema.VStr (title d)
  ∧ Schema.prop fields "description" = Schema.VStr (description d)
  ∧ (∀ b, Schema.prop fields "isDraft" = Schema.VBool b → isDraft d = b)
  ∧ (∀ ts, tags d = Some ts ↔
           Schema.prop fields "tags" = Schema.VArr (Schema.VStr <$> ts)).
Proof.
  intros (H1 & H2 & _ & _ & H5 & _ & _ & H8)%blog_schema_success.
  split_and!.
  - by destruct (Schema.prop fields "title"); simplify_eq/=.
  - by destruct (Schema.prop fields "description"); simplify_eq/=.
  - intros b Hb. rewrite Hb in H5. by injection H5.
  - intros ts. rewrite <-z_array_string_Some. unfold Schema.optional in H8.
    destruct (Schema.prop fields "tags") eqn:Hp; simplify_eq/=;
      try (split; [by intros <- | by intros [= <-]]);
      try (destruct (mapM _ _); simplify_eq/=;
           split; [by intros [= <-] | by intros [= <-]]).
Qed.

Lemma blog_schema_keeps_values_witness :
  Schema.prop (frontmatter_fields (Schema.VStr "Hello")) "title"
  = Schema.VStr (title (frontmatter_data "Hello"))
  ∧ Schema.prop (frontmatter_fields (Schema.VStr "Hello")) "description"
    = Schema.VStr (description (frontmatter_data "Hello")).
Proof.
  destruct (blog_schema_keeps_values sample_host
              (frontmatter_fields (Schema.VStr "Hello"))
              (frontmatter_data "Hello")) as (H1 & H2 & _).
  - vm_compute. reflexivity.
  - exact (conj H1 H2).
Defined.

(** X20. Keys the schema does not have are ignored: two records that agree on
    the eight keys of the schema have the same outcome. *)
Theorem blog_schema_ignores_other_keys (h : Schema.Host)
    (fields fields' : list (string * Schema.value)) :
  (∀ key, key ∈ blog_schema_keys →
          Schema.prop fields key = Schema.prop fields' key) →
  Schema.blog_schema h (Schema.VObj fields)
  = Schema.blog_schema h (Schema.VObj fields').
Proof.
  intros Hsame. unfold Schema.blog_schema.
  rewrite !Hsame by (apply (bool_decide_unpack _); vm_compute; exact I).
  done.
Qed.

Lemma blog_schema_ignores_other_keys_witness :
  Schema.blog_schema sample_host (Schema.VObj frontmatter_with_layout)
  = Schema.blog_schema sample_host (frontmatter (Schema.VStr "Hello")).
Proof.
  apply (blog_schema_ignores_other_keys sample_host frontmatter_with_layout
           (frontmatter_fields (Schema.VStr "Hello"))).
  intros key Hkey. unfold frontmatter_with_layout. simpl.
  destruct (decide ("layout" = key)) as [<-|]; [|reflexivity].
  apply (bool_decide_pack _) in Hkey. vm_compute in Hkey. destruct Hkey.
Defined.

(** X21. A validated post is published unless its frontmatter says
    [isDraft: true]: without the field, or with [false], its entry is in
    the published list of every store that holds it. *)
Theorem validated_post_published (h : Schema.Host)
    (fields : list (string * Schema.value)) (d : BlogData) (i : string)
    (st : ContentStore) :
  Schema.blog_schema h (Schema.VObj fields) = Schema.success d →
  {| id := i; data := d |} ∈ getCollection_blog st →
  {| id := i; data := d |} ∈ getPublishedBlogs st ↔
  Schema.prop fields "isDraft" ≠ Schema.VBool true.
Proof.
  intros (_ & _ & _ & _ & H5 & _)%blog_schema_success Hin.
  rewrite getPublishedBlogs_Permutation, list_elem_of_filter. simpl.
  assert (isDraft d = false ↔
          Schema.prop fields "isDraft" ≠ Schema.VBool true) as <-.
  { destruct (Schema.prop fields "isDraft") as [| |[|]| | | | |];
      try done; injection H5 as <-; split; try done;
      intros Hne; by destruct Hne. }
  tauto.
Qed.

Lemma validated_post_published_witness :
  {| id := "hello"; data := frontmatter_data "Hello" |}
    ∈ getPublishedBlogs hello_store ↔
  Schema.prop (frontmatter_fields (Schema.VStr "Hello")) "isDraft"
  ≠ Schema.VBool true.
Proof.
  apply (validated_post_published sample_host).
  - vm_compute. reflexivity.
  - right. left.
Defined.

(** [getTagsWithBlogs_first_appearance] at the sample store, where no tag
    is an array index. *)
Lemma getTagsWithBlogs_first_appearance_witness :
  fst <$> [("js", [postA; postB]); ("css", [postB; postE; postE])]
  = first_appearance (fst <$> tagWalk (getPublishedBlogs sample_store)).
Proof.
  apply (getTagsWithBlogs_first_appearance sample_store).
  - vm_compute. reflexivity.
  - apply (bool_decide_unpack _). vm_compute. exact I.
Defined.

(** * Posts without tags and [getTagsWithBlogs] *)

(** Filtering the published list is publishing the filtered store. *)
Lemma getPublishedBlogs_filter (st : ContentStore) (Q : BlogEntry → Prop)
    `{∀ blog, Decision (Q blog)} :
  filter Q (getPublishedBlogs st)
  = getPublishedBlogs (with_blogs st (filter Q (getCollection_blog st))).
Proof.
  apply getPublishedBlogs_determined.
  - apply StronglySorted_filter, getPublishedBlogs_sorted.
  - intros d. unfold with_blogs. simpl.
    rewrite filter_comm, getPublishedBlogs_same_date.
    rewrite filter_comm. f_equal. apply filter_comm.
Qed.

Lemma tagWalk_tagged (blogs : list BlogEntry) :
  tagWalk (filter (λ blog, tagsOf blog ≠ []) blogs) = tagWalk blogs.
Proof.
  induction blogs as [|blog blogs IH]; [done|].
  rewrite filter_cons. unfold tagWalk in *.
  destruct (decide (tagsOf blog ≠ [])) as [Hne|He].
  - by rewrite !bind_cons, IH.
  - rewrite bind_cons, IH.
    destruct (tagsOf blog) as [|t ts]; [done|]. by destruct He.
Qed.

Lemma getTagsWithBlogs_walk (st : ContentStore) :
  getTagsWithBlogs st
  = JS.forEach (tagWalk (getPublishedBlogs st)) (λ tb, addTag tb.2 tb.1) []
    ≫= (λ tagMap, mret (JS.Object_entries tagMap)).
Proof. unfold getTagsWithBlogs. by rewrite forEach_tagWalk. Qed.

(** Only the posts that carry a tag count: [getTagsWithBlogs] has the same
    outcome on a store and on its posts with at least one tag. *)
Lemma getTagsWithBlogs_tagged (st : ContentStore) :
  getTagsWithBlogs st
  = getTagsWithBlogs
      (with_blogs st
         (filter (λ blog, tagsOf blog ≠ []) (getCollection_blog st))).
Proof.
  rewrite !getTagsWithBlogs_walk.
  rewrite <-(getPublishedBlogs_filter st (λ blog, tagsOf blog ≠ [])).
  by rewrite tagWalk_tagged.
Qed.

Lemma getTagsWithBlogs_untagged_post (st : ContentStore)
    (e e' : BlogEntry) (l1 l2 : list BlogEntry) :
  tagsOf e = [] → tagsOf e' = [] →
  getTagsWithBlogs (with_blogs st (l1 ++ e :: l2))
  = getTagsWithBlogs (with_blogs st (l1 ++ e' :: l2)).
Proof.
  intros He He'.
  rewrite (getTagsWithBlogs_tagged (with_blogs st (l1 ++ e :: l2))).
  rewrite (getTagsWithBlogs_tagged (with_blogs st (l1 ++ e' :: l2))).
  unfold with_blogs. simpl.
  rewrite !filter_app, !filter_cons_False; [done|..].
  - intros Hne. by apply Hne.
  - intros Hne. by apply Hne.
Qed.

Lemma getTagsWithBlogs_not_in_pair (st : ContentStore) out tag blogs
    (e : BlogEntry) :
  tagsOf e = [] →
  getTagsWithBlogs st = JS.normal out → (tag, blogs) ∈ out → e ∉ blogs.
Proof.
  intros He [_ ->]%getTagsWithBlogs_normal Hin Hblog.
  rewrite Object_entries_Permutation in Hin.
  apply elem_of_tagMap_of in Hin as [_ ->].
  apply elem_of_bucket, elem_of_tagWalk in Hblog as [_ Htag].
  rewrite He in Htag. by apply elem_of_nil in Htag.
Qed.

(** C8, as the code has it. In a record that passes, an absent [isDraft]
    becomes [false] in the validated entity, while an absent [tags] stays
    absent there. It is [getTagsWithBlogs] that reads it as the empty
    sequence: wherever the entry of such a record stands in a store,
    [getTagsWithBlogs] has the outcome it has with the entry's tags set to
    the empty sequence, and the entry is in no pair it returns. *)
Theorem blog_schema_absent_fields (h : Schema.Host)
    (fields : list (string * Schema.value)) (d : BlogData) :
  Schema.blog_schema h (Schema.VObj fields) = Schema.success d →
  (Schema.prop fields "isDraft" = Schema.VUndefined → isDraft d = false)
  ∧ (Schema.prop fields "tags" = Schema.VUndefined →
     tags d = None
     ∧ ∀ (st : ContentStore) (i : string) (l1 l2 : list BlogEntry),
         getTagsWithBlogs
           (with_blogs st (l1 ++ {| id := i; data := d |} :: l2))
         = getTagsWithBlogs
             (with_blogs st
                (l1 ++ {| id := i; data := with_tags d (Some []) |} :: l2))
         ∧ ∀ out tag blogs,
             getTagsWithBlogs
               (with_blogs st (l1 ++ {| id := i; data := d |} :: l2))
             = JS.normal out →
             (tag, blogs) ∈ out → {| id := i; data := d |} ∉ blogs).
Proof.
  intros (_ & _ & _ & _ & H5 & _ & _ & H8)%blog_schema_success. split.
  - intros Hp. rewrite Hp in H5. by injection H5.
  - intros Hp. rewrite Hp in H8. injection H8 as H8.
    split; [done|]. intros st i l1 l2.
    assert (tagsOf {| id := i; data := d |} = []) as Hnone
      by (unfold tagsOf; simpl; by rewrite <-H8).
    split.
    + by apply getTagsWithBlogs_untagged_post.
    + intros out tag blogs Hout Hin.
      by apply (getTagsWithBlogs_not_in_pair
                  (with_blogs st (l1 ++ {| id := i; data := d |} :: l2))
                  out tag blogs).
Qed.

(** C8 as amended, at the sample frontmatter, its entry standing between
    [C] and [A]. *)
Lemma blog_schema_absent_fields_witness :
  isDraft (frontmatter_data "Hello") = false
  ∧ tags (frontmatter_data "Hello") = None
  ∧ getTagsWithBlogs
      (with_blogs sample_store
         ([postC] ++ {| id := "hello"; data := frontmatter_data "Hello" |}
                  :: [postA]))
    = getTagsWithBlogs
        (with_blogs sample_store
           ([postC] ++ {| id := "hello";
                          data := with_tags (frontmatter_data "Hello")
                                    (Some []) |}
                    :: [postA])).
Proof.
  destruct (blog_schema_absent_fields sample_host
              (frontmatter_fields (Schema.VStr "Hello"))
              (frontmatter_data "Hello")) as [Hdraft Htags].
  - vm_compute. reflexivity.
  - destruct (Htags eq_refl) as [Hnone Hread].
    split; [apply Hdraft; reflexivity|]. split; [exact Hnone|].
    apply (Hread sample_store "hello" [postC] [postA]).
Defined.
